(** * Banking functions: FV, PV, PMT, IPMT, PPMT

    A shallow embedding of [src/bank-functions.js].  The five functions are
    written once, over an interface [Number] for the arithmetic of the
    JavaScript number type, and read at two instances:

    - [IEEE pow]: binary64 floating point (the primitive floats), which is what
      a JavaScript engine computes with; [Math.pow] is a built-in of the
      engine, it is the parameter [pow];
    - [Exact rpow]: the real numbers, the arithmetic the formulas are meant to
      approximate. *)

From Stdlib Require Import ZArith Bool Floats Reals Lia Lra.

(** ** JavaScript values *)

(** An argument of a call is a number, or [undefined] when the caller left it
    out. *)
Inductive value (num : Type) : Type :=
| Undefined
| Num (x : num).

Arguments Undefined {num}.
Arguments Num {num} x.

(** ** The number type *)

(** What the functions use of the number type: the literals [0], [1] and [2],
    the value [NaN] that [undefined] turns into when used in arithmetic, the
    operators [+ - * /] and unary minus, [Math.pow], strict equality [===]
    and the conversion to boolean behind [||]. *)
Record Number : Type := {
  num : Type;
  zero : num;
  one : num;
  two : num;
  NaN : num;
  add : num -> num -> num;
  sub : num -> num -> num;
  mul : num -> num -> num;
  div : num -> num -> num;
  neg : num -> num;
  pow : num -> num -> num;
  strict_eq : num -> num -> bool;
  to_boolean : num -> bool;
  zero_falsy : to_boolean zero = false;
  one_truthy : to_boolean one = true;
  zero_is_zero : strict_eq zero zero = true;
  one_is_one : strict_eq one one = true;
  one_not_zero : strict_eq one zero = false;
  strict_eq_sym : forall x y, strict_eq x y = strict_eq y x
}.

(** ** The functions of bank-functions.js *)

Section BankFunctions.

Variable N : Number.

Local Abbreviation val := (value (num N)).
Local Notation "0" := (zero N).
Local Notation "1" := (one N).
Local Notation "2" := (two N).
Local Infix "+" := (add N).
Local Infix "-" := (sub N).
Local Infix "*" := (mul N).
Local Infix "/" := (div N).
Local Notation "- x" := (neg N x).

(** ToNumber, applied by the arithmetic operators to their operands. *)
Definition to_number (v : val) : num N :=
  match v with
  | Undefined => NaN N
  | Num x => x
  end.

(** ToBoolean: [undefined] is falsy, a number is falsy when the number type
    says so. *)
Definition truthy (v : val) : bool :=
  match v with
  | Undefined => false
  | Num x => to_boolean N x
  end.

(** [v || 0]. *)
Definition or_zero (v : val) : val :=
  if truthy v then v else Num 0.

(** [v === k] for a number [k]: [undefined] is strictly equal to no number. *)
Definition is_num (v : val) (k : num N) : bool :=
  match v with
  | Undefined => false
  | Num x => strict_eq N x k
  end.

(** [k === v], the literal on the left as in [1 === fv_type]. *)
Definition num_is (k : num N) (v : val) : bool :=
  match v with
  | Undefined => false
  | Num x => strict_eq N k x
  end.

#[local, warning="-uniform-inheritance"]
Coercion to_number : value >-> num.

Definition FV (fv_rate fv_periods fv_payments fv_present_value fv_type : val)
  : num N :=
  let fv_present_value := or_zero fv_present_value in
  let fv_type := or_zero fv_type in
  if is_num fv_rate 0 then fv_present_value + fv_payments * fv_periods
  else
    let term := pow N (1 + fv_rate) fv_periods in
    if num_is 1 fv_type
    then fv_present_value * term + fv_payments * (1 + fv_rate) * (term - 1) / fv_rate
    else fv_present_value * term + fv_payments * (term - 1) / fv_rate.

Definition PV (pv_rate pv_periods pv_payment pv_future fv_type : val) : num N :=
  let pv_future := or_zero pv_future in
  let fv_type := or_zero fv_type in
  if is_num pv_rate 0 then - pv_payment * pv_periods - pv_future
  else
    ((1 - pow N (1 + pv_rate) pv_periods) / pv_rate * pv_payment
       * (1 + pv_rate * fv_type) - pv_future)
      / pow N (1 + pv_rate) pv_periods * - (1).

Definition PMT (pmt_rate pmt_periods pmt_present pmt_future pmt_type : val)
  : num N :=
  let pmt_future := or_zero pmt_future in
  let pmt_type := or_zero pmt_type in
  if is_num pmt_rate 0 then (pmt_present + pmt_future) / pmt_periods
  else
    let pmt_term := pow N (1 + pmt_rate) pmt_periods in
    if is_num pmt_type 1
    then (pmt_future * pmt_rate / (pmt_term - 1)
          + pmt_present * pmt_rate / (1 - 1 / pmt_term)) / (1 + pmt_rate)
    else pmt_future * pmt_rate / (pmt_term - 1)
         + pmt_present * pmt_rate / (1 - 1 / pmt_term).

Definition IPMT
  (ipmt_rate ipmt_period ipmt_periods ipmt_present ipmt_future ipmt_type : val)
  : num N :=
  let ipmt_future := or_zero ipmt_future in
  let ipmt_type := or_zero ipmt_type in
  let impt_payment :=
    PMT ipmt_rate ipmt_periods ipmt_present ipmt_future ipmt_type in
  let impt_interest :=
    if is_num ipmt_period 1 then
      if is_num ipmt_type 1 then 0 else - ipmt_present
    else
      if is_num ipmt_type 1
      then FV ipmt_rate (Num (ipmt_period - 2)) (Num impt_payment)
              ipmt_present (Num 1) - impt_payment
      else FV ipmt_rate (Num (ipmt_period - 1)) (Num impt_payment)
              ipmt_present (Num 0) in
  impt_interest * ipmt_rate.

Definition PPMT
  (ppmt_rate ppmt_period ppmt_periods ppmt_present ppmt_future ppmt_type : val)
  : num N :=
  let ppmt_future := or_zero ppmt_future in
  let ppmt_type := or_zero ppmt_type in
  PMT ppmt_rate ppmt_periods ppmt_present ppmt_future ppmt_type
  - IPMT ppmt_rate ppmt_period ppmt_periods ppmt_present ppmt_future ppmt_type.

End BankFunctions.

Arguments to_number {N} v.
Arguments truthy {N} v.
Arguments or_zero {N} v.

(** ** Binary64 floating point *)

Module Float64.

Open Scope float_scope.

(** [===] on numbers is the IEEE comparison: [NaN] differs from itself and
    [-0] equals [+0]. *)
Definition strict_eq (x y : float) : bool := x =? y.

(** ToBoolean on numbers: [+0], [-0] and [NaN] are falsy. *)
Definition to_boolean (x : float) : bool :=
  negb ((x =? 0) || is_nan x).

Lemma SFeqb_sym (a b : spec_float) : SFeqb a b = SFeqb b a.
Proof.
  unfold SFeqb, SFcompare.
  destruct a as [sa|sa| |sa ma ea], b as [sb|sb| |sb mb eb]; try reflexivity;
    try (destruct sa; reflexivity); try (destruct sb; reflexivity);
    try (destruct sa, sb; reflexivity).
  pose proof (Pos.compare_cont_antisym ma mb Eq) as Hm; simpl in Hm.
  destruct sa, sb; try reflexivity;
    rewrite (Z.compare_antisym ea eb);
    destruct (ea ?= eb)%Z; simpl; try reflexivity;
    rewrite <- Hm; destruct (Pos.compare_cont Eq ma mb); reflexivity.
Qed.

Lemma eqb_sym (x y : float) : strict_eq x y = strict_eq y x.
Proof. unfold strict_eq. rewrite !eqb_spec. apply SFeqb_sym. Qed.

End Float64.

(** The number type of a JavaScript engine whose [Math.pow] is [pow]. *)
Definition IEEE (pow : float -> float -> float) : Number := {|
  num := float;
  zero := 0%float;
  one := 1%float;
  two := 2%float;
  NaN := nan;
  add := PrimFloat.add;
  sub := PrimFloat.sub;
  mul := PrimFloat.mul;
  div := PrimFloat.div;
  neg := PrimFloat.opp;
  pow := pow;
  strict_eq := Float64.strict_eq;
  to_boolean := Float64.to_boolean;
  zero_falsy := eq_refl;
  one_truthy := eq_refl;
  zero_is_zero := eq_refl;
  one_is_one := eq_refl;
  one_not_zero := eq_refl;
  strict_eq_sym := Float64.eqb_sym
|}.

(** ** A model of [Math.pow] *)

(** ECMAScript fixes the result of [Math.pow] in the special cases (an exponent
    [NaN] or zero, a base [NaN], zero or infinite, an infinite exponent, a
    negative base with an exponent that is no integer) and leaves the other
    results to the engine, as an approximation of the power.  [Math_pow] is
    one such engine: for an exponent that is an integer it multiplies the base
    as many times, which gives the prescribed results in the special cases of
    a zero or infinite base; the power of a positive finite base to an
    exponent that is no integer is not modelled, and is [NaN] here.  The
    theorems below are about every [pow]; [Math_pow] is there to evaluate the
    functions on examples, whose exponents are integers. *)
Module MathPow.

Open Scope float_scope.

(** The integer a float is, if it is one. *)
Definition to_integer (y : float) : option Z :=
  match Prim2SF y with
  | S754_zero _ => Some 0%Z
  | S754_finite s m e =>
      let n :=
        match e with
        | Z0 => Some (Zpos m)
        | Zpos p => Some (Zpos m * Z.pow_pos 2 p)%Z
        | Zneg p =>
            if (Zpos m mod Z.pow_pos 2 p =? 0)%Z
            then Some (Zpos m / Z.pow_pos 2 p)%Z else None
        end in
      option_map (fun n => if s then (- n)%Z else n) n
  | _ => None
  end.

(** [base * ... * base], [n] factors. *)
Definition power (base : float) (n : positive) : float :=
  Pos.iter (fun acc => acc * base) 1 n.

Definition Math_pow (base exponent : float) : float :=
  if exponent =? 0 then 1
  else if is_nan exponent || is_nan base then nan
  else
    match to_integer exponent with
    | Some (Zpos n) => power base n
    | Some (Zneg n) => 1 / power base n
    | Some Z0 => 1
    | None =>
        if is_infinity exponent then
          if abs base =? 1 then nan
          else if Bool.eqb (1 <? abs base) (0 <? exponent) then infinity else 0
        else if is_zero base || is_infinity base then
          if 0 <? exponent then abs base else 1 / abs base
        else nan
    end.

End MathPow.

(** The engine the examples are evaluated on. *)
Definition JS : Number := IEEE MathPow.Math_pow.

(** ** Tolerances *)

(** [x] is within [tol] of [y]. *)
Definition close_to (tol x y : float) : bool :=
  (abs (x - y) <=? tol)%float.

(** [x] is within the relative tolerance [tol] of [y]. *)
Definition rel_close_to (tol x y : float) : bool :=
  (abs (x - y) <=? tol * abs y)%float.

(** ** Exact arithmetic *)

Module Real.

Open Scope R_scope.

Definition strict_eq (x y : R) : bool :=
  if Req_dec_T x y then true else false.

Definition to_boolean (x : R) : bool := negb (strict_eq x 0).

Lemma strict_eq_true (x y : R) : x = y -> strict_eq x y = true.
Proof. intros H. unfold strict_eq. destruct (Req_dec_T x y); congruence. Qed.

Lemma strict_eq_false (x y : R) : x <> y -> strict_eq x y = false.
Proof. intros H. unfold strict_eq. destruct (Req_dec_T x y); congruence. Qed.

Lemma Req_sym (x y : R) : strict_eq x y = strict_eq y x.
Proof.
  unfold strict_eq. destruct (Req_dec_T x y), (Req_dec_T y x); congruence.
Qed.

Lemma R0_falsy : to_boolean 0 = false.
Proof. unfold to_boolean. now rewrite strict_eq_true. Qed.

Lemma R1_truthy : to_boolean 1 = true.
Proof. unfold to_boolean. rewrite strict_eq_false; [reflexivity | lra]. Qed.

Lemma R1_not_R0 : strict_eq 1 0 = false.
Proof. apply strict_eq_false. lra. Qed.

End Real.

(** The real numbers, with [rpow] for the power.  There is no [NaN] among
    them: an argument left out would count as [0], so the theorems on this
    instance take numbers for the arguments the source does not default; a
    quotient by [0] is the one of the library. *)
Definition Exact (rpow : R -> R -> R) : Number := {|
  num := R;
  zero := 0%R;
  one := 1%R;
  two := 2%R;
  NaN := 0%R;
  add := Rplus;
  sub := Rminus;
  mul := Rmult;
  div := Rdiv;
  neg := Ropp;
  pow := rpow;
  strict_eq := Real.strict_eq;
  to_boolean := Real.to_boolean;
  zero_falsy := Real.R0_falsy;
  one_truthy := Real.R1_truthy;
  zero_is_zero := Real.strict_eq_true 0%R 0%R eq_refl;
  one_is_one := Real.strict_eq_true 1%R 1%R eq_refl;
  one_not_zero := Real.R1_not_R0;
  strict_eq_sym := Real.Req_sym
|}.

(** * Properties *)

(** ** Default substitution and the tests on [type], for every number type *)

Section Defaults.

Variable N : Number.

Local Abbreviation val := (value (num N)).

Lemma or_zero_truthy (v : val) : truthy v = true -> or_zero v = v.
Proof. intros H. unfold or_zero. now rewrite H. Qed.

Lemma or_zero_falsy (v : val) : truthy v = false -> or_zero v = Num (zero N).
Proof. intros H. unfold or_zero. now rewrite H. Qed.

Lemma or_zero_zero : or_zero (Num (zero N)) = Num (zero N).
Proof. apply or_zero_falsy, zero_falsy. Qed.

Lemma or_zero_one : or_zero (Num (one N)) = Num (one N).
Proof. apply or_zero_truthy, one_truthy. Qed.

Lemma or_zero_undefined : or_zero (@Undefined (num N)) = Num (zero N).
Proof. reflexivity. Qed.

(** Defaulting an argument twice, in the caller and in the callee, is
    defaulting it once. *)
Lemma or_zero_idem (v : val) : or_zero (or_zero v) = or_zero v.
Proof.
  destruct (truthy v) eqn:Hv.
  - now rewrite !(or_zero_truthy v Hv).
  - rewrite (or_zero_falsy v Hv). apply or_zero_zero.
Qed.

Lemma zero_not_one : strict_eq N (zero N) (one N) = false.
Proof. rewrite strict_eq_sym. apply one_not_zero. Qed.

Lemma num_is_is_num (k : num N) (v : val) : num_is N k v = is_num N v k.
Proof. destruct v; [reflexivity | apply strict_eq_sym]. Qed.

Lemma PMT_defaulted (rate periods present future type : val) :
  PMT N rate periods present (or_zero future) (or_zero type)
  = PMT N rate periods present future type.
Proof. unfold PMT. now rewrite !or_zero_idem. Qed.

Lemma IPMT_defaulted (rate period periods present future type : val) :
  IPMT N rate period periods present (or_zero future) (or_zero type)
  = IPMT N rate period periods present future type.
Proof. unfold IPMT. now rewrite !or_zero_idem. Qed.

(** [PPMT] is the difference it is written as, on the arguments as given. *)
Lemma PPMT_difference (rate period periods present future type : val) :
  PPMT N rate period periods present future type
  = sub N (PMT N rate periods present future type)
          (IPMT N rate period periods present future type).
Proof. unfold PPMT. now rewrite PMT_defaulted, IPMT_defaulted. Qed.

End Defaults.

(** ** The three tests on [type] *)

Section TypeFlag.

Variable N : Number.

Local Abbreviation val := (value (num N)).

(** A [type] that is truthy and strictly different from [1] takes, in [FV],
    [PMT] and [IPMT], the branch that [0] takes. *)
Variable t : num N.
Hypothesis t_truthy : to_boolean N t = true.
Hypothesis t_not_one : strict_eq N t (one N) = false.

Lemma FV_type_other (rate periods payments present : val) :
  FV N rate periods payments present (Num t)
  = FV N rate periods payments present (Num (zero N)).
Proof.
  unfold FV. rewrite or_zero_zero, (or_zero_truthy N (Num t) t_truthy).
  rewrite !num_is_is_num. simpl. now rewrite t_not_one, zero_not_one.
Qed.

Lemma PMT_type_other (rate periods present future : val) :
  PMT N rate periods present future (Num t)
  = PMT N rate periods present future (Num (zero N)).
Proof.
  unfold PMT. rewrite or_zero_zero, (or_zero_truthy N (Num t) t_truthy).
  simpl. now rewrite t_not_one, zero_not_one.
Qed.

Lemma IPMT_type_other (rate period periods present future : val) :
  IPMT N rate period periods present future (Num t)
  = IPMT N rate period periods present future (Num (zero N)).
Proof.
  unfold IPMT. rewrite or_zero_zero, (or_zero_truthy N (Num t) t_truthy).
  rewrite PMT_type_other. simpl. now rewrite t_not_one, zero_not_one.
Qed.

End TypeFlag.

(** ** The interest of a period other than the first *)

Section LaterPeriods.

Variable N : Number.

Local Abbreviation val := (value (num N)).

Variables rate period periods present future : val.
Hypothesis not_first : is_num N period (one N) = false.

Lemma IPMT_start_of_period :
  let payment := PMT N rate periods present future (Num (one N)) in
  IPMT N rate period periods present future (Num (one N))
  = mul N (sub N (FV N rate (Num (sub N (to_number period) (two N)))
                       (Num payment) present (Num (one N)))
                 payment)
          (to_number rate).
Proof.
  unfold IPMT. rewrite PMT_defaulted, or_zero_one, not_first.
  simpl. now rewrite one_is_one.
Qed.

Lemma IPMT_end_of_period :
  let payment := PMT N rate periods present future (Num (zero N)) in
  IPMT N rate period periods present future (Num (zero N))
  = mul N (FV N rate (Num (sub N (to_number period) (one N)))
                 (Num payment) present (Num (zero N)))
          (to_number rate).
Proof.
  unfold IPMT. rewrite PMT_defaulted, or_zero_zero, not_first.
  simpl. now rewrite zero_not_one.
Qed.

End LaterPeriods.

(** ** Infinities and NaN in binary64 *)

Module FloatFacts.

Open Scope float_scope.

(** Neither zero nor a finite non-zero number. *)
Definition SFnonfinite (f : spec_float) : bool :=
  match f with
  | S754_nan | S754_infinity _ => true
  | S754_zero _ | S754_finite _ _ _ => false
  end.

Lemma SFeqb_refl_finite (s : bool) (m : positive) (e : Z) :
  SFeqb (S754_finite s m e) (S754_finite s m e) = true.
Proof.
  unfold SFeqb, SFcompare.
  destruct s; rewrite Z.compare_refl, Pos.compare_cont_refl; reflexivity.
Qed.

(** [Number.isFinite], read on the specification of the float. *)
Lemma is_finite_spec (x : float) :
  is_finite x = negb (SFnonfinite (Prim2SF x)).
Proof.
  unfold is_finite, is_nan, is_infinity.
  rewrite !eqb_spec, abs_spec.
  change (Prim2SF infinity) with (S754_infinity false).
  destruct (Prim2SF x) as [s|s| |s m e]; try (destruct s; reflexivity);
    try reflexivity.
  simpl SFabs. rewrite SFeqb_refl_finite. reflexivity.
Qed.

Lemma nonfinite_spec (x : float) :
  SFnonfinite (Prim2SF x) = true -> is_finite x = false.
Proof. intros H. now rewrite is_finite_spec, H. Qed.

Lemma finite_spec (x : float) :
  is_finite x = true -> SFnonfinite (Prim2SF x) = false.
Proof. rewrite is_finite_spec. now destruct (SFnonfinite (Prim2SF x)). Qed.

Lemma not_finite_spec (x : float) :
  is_finite x = false -> SFnonfinite (Prim2SF x) = true.
Proof. rewrite is_finite_spec. now destruct (SFnonfinite (Prim2SF x)). Qed.

(** A float that [===] zero is [+0] or [-0]. *)
Lemma eqb_zero_spec (z : float) :
  (z =? 0) = true -> exists s, Prim2SF z = S754_zero s.
Proof.
  rewrite eqb_spec. change (Prim2SF 0) with (S754_zero false).
  destruct (Prim2SF z) as [s|s| |s m e]; try discriminate.
  - now exists s.
  - destruct s; discriminate.
  - destruct s; discriminate.
Qed.

(** A quotient by zero is infinite or NaN, whatever is divided. *)
Lemma div_by_zero (x z : float) :
  (z =? 0) = true -> is_finite (x / z) = false.
Proof.
  intros Hz. destruct (eqb_zero_spec z Hz) as [s Hs].
  apply nonfinite_spec. rewrite div_spec, Hs.
  destruct (Prim2SF x); reflexivity.
Qed.

Lemma add_nonfinite (x y : float) :
  is_finite x = false -> is_finite y = false -> is_finite (x + y) = false.
Proof.
  intros Hx%not_finite_spec Hy%not_finite_spec.
  apply nonfinite_spec. rewrite add_spec.
  destruct (Prim2SF x) as [| sx | |], (Prim2SF y) as [| sy | |];
    try discriminate; try reflexivity.
  destruct sx, sy; reflexivity.
Qed.

Lemma div_nonfinite (x y : float) :
  is_finite x = false -> is_finite (x / y) = false.
Proof.
  intros Hx%not_finite_spec.
  apply nonfinite_spec. rewrite div_spec.
  destruct (Prim2SF x), (Prim2SF y); try discriminate; reflexivity.
Qed.

Lemma mul_infinity (x : float) : is_finite (x * infinity) = false.
Proof.
  apply nonfinite_spec. rewrite mul_spec.
  change (Prim2SF infinity) with (S754_infinity false).
  destruct (Prim2SF x); reflexivity.
Qed.

(** The product of zero and a finite number is a zero. *)
Lemma zero_mul_finite (x : float) :
  is_finite x = true -> (0 * x =? 0) = true.
Proof.
  intros Hx%finite_spec.
  rewrite eqb_spec, mul_spec.
  change (Prim2SF 0) with (S754_zero false).
  destruct (Prim2SF x) as [s|s| |s m e]; try discriminate;
    destruct s; reflexivity.
Qed.

(** NaN is absorbing. *)
Lemma is_nan_spec (x : float) : Prim2SF x = S754_nan -> x = nan.
Proof. intros H. apply Prim2SF_inj. now rewrite H. Qed.

Lemma mul_nan_l (x : float) : nan * x = nan.
Proof. apply is_nan_spec. rewrite mul_spec. reflexivity. Qed.

Lemma div_nan_l (x : float) : nan / x = nan.
Proof. apply is_nan_spec. rewrite div_spec. reflexivity. Qed.

Lemma add_nan_r (x : float) : x + nan = nan.
Proof.
  apply is_nan_spec. rewrite add_spec.
  change (Prim2SF nan) with S754_nan. now destruct (Prim2SF x).
Qed.

(** Above [1] is not [1]. *)
Lemma ltb_not_eqb (x y : float) : (x <? y) = true -> (y =? x) = false.
Proof.
  rewrite ltb_spec, eqb_spec, Float64.SFeqb_sym. unfold SFltb, SFeqb.
  now destruct (SFcompare (Prim2SF x) (Prim2SF y)) as [[| |]|].
Qed.

End FloatFacts.

(** ** Rounding in binary64 *)

(** The error of a sum, a difference, a product and a quotient of floats,
    from the specification of the operations: the value of a float is a real
    number; a finite sum is within [2^-52] times itself of the sum of the
    values, and so is a product or a quotient that is a normal number. *)
Module Rounding.

Local Open Scope Z_scope.

Lemma digits2_pos_bounds (m : positive) :
  2 ^ (Z.pos (digits2_pos m) - 1) <= Z.pos m < 2 ^ Z.pos (digits2_pos m).
Proof.
  induction m as [p IH | p IH |]; simpl digits2_pos.
  - rewrite Pos2Z.inj_succ.
    replace (Z.succ (Z.pos (digits2_pos p)) - 1)
      with (Z.succ (Z.pos (digits2_pos p) - 1)) by lia.
    rewrite !Z.pow_succ_r by lia. lia.
  - rewrite Pos2Z.inj_succ.
    replace (Z.succ (Z.pos (digits2_pos p)) - 1)
      with (Z.succ (Z.pos (digits2_pos p) - 1)) by lia.
    rewrite !Z.pow_succ_r by lia. lia.
  - simpl. lia.
Qed.

Lemma shr_1_quot2 (r : shr_record) : shr_m (shr_1 r) = Z.quot2 (shr_m r).
Proof. destruct r as [m r s]. destruct m as [|[p|p|]|[p|p|]]; reflexivity. Qed.

Lemma iter_pos_map (A B : Type) (f : A -> A) (g : B -> B) (Q : A -> B) :
  (forall x, Q (f x) = g (Q x)) ->
  forall p x, Q (SpecFloat.iter_pos f p x) = Pos.iter g (Q x) p.
Proof.
  intros H. induction p as [p IH | p IH |]; intros x; simpl.
  - rewrite !IH, H, !Pos.iter_swap. reflexivity.
  - rewrite !IH. reflexivity.
  - apply H.
Qed.

Lemma iter_quot2 (p : positive) (m : Z) :
  0 <= m -> Pos.iter Z.quot2 m p = m / 2 ^ Z.pos p.
Proof.
  intros Hm. induction p as [|p IH] using Pos.peano_ind.
  - simpl. rewrite Zquot2_quot, Z.quot_div_nonneg by lia. reflexivity.
  - rewrite Pos.iter_succ, IH, Pos2Z.inj_succ, Z.pow_succ_r by lia.
    rewrite Zquot2_quot, Z.quot_div_nonneg, Z.div_div; try lia.
    + f_equal. lia.
    + apply Z.div_pos; lia.
Qed.

Lemma shr_spec (mrs : shr_record) (e n : Z) :
  0 <= shr_m mrs ->
  snd (shr mrs e n) = e + Z.max n 0
  /\ shr_m (fst (shr mrs e n)) = shr_m mrs / 2 ^ Z.max n 0
  /\ (n <= 0 -> fst (shr mrs e n) = mrs).
Proof.
  intros Hm. destruct n as [|p|p]; simpl.
  - rewrite Z.div_1_r. repeat split; lia.
  - rewrite (iter_pos_map _ _ shr_1 Z.quot2 shr_m shr_1_quot2).
    rewrite iter_quot2 by assumption. repeat split; lia.
  - rewrite Z.div_1_r. repeat split; lia.
Qed.

Lemma round_nearest_even_cases (m : Z) (l : location) :
  round_nearest_even m l = m \/ round_nearest_even m l = m + 1.
Proof.
  destruct l as [|[| |]]; simpl; auto. destruct (Z.even m); auto.
Qed.

Lemma loc_of_shr_record_of_loc (m : Z) (l : location) :
  loc_of_shr_record (shr_record_of_loc m l) = l.
Proof. destruct l as [|[| |]]; reflexivity. Qed.

Lemma shr_m_of_loc (m : Z) (l : location) : shr_m (shr_record_of_loc m l) = m.
Proof. destruct l as [|[| |]]; reflexivity. Qed.

(** The two shifts and the rounding in between of [binary_round_aux]. *)
Definition rounded (m e : Z) (l : location) (m3 e3 : Z) : Prop :=
  exists a b m2 : Z,
    a = Z.max (fexp prec emax (Zdigits2 m + e) - e) 0
    /\ b = Z.max (fexp prec emax (Zdigits2 m2 + (e + a)) - (e + a)) 0
    /\ e3 = e + a + b
    /\ (m2 = m / 2 ^ a \/ m2 = m / 2 ^ a + 1)
    /\ m3 = m2 / 2 ^ b
    /\ (a = 0 -> l = loc_Exact -> m2 = m).

Lemma binary_round_aux_rounded (s : bool) (m e : Z) (l : location) :
  0 <= m ->
  exists m3 e3, rounded m e l m3 e3
    /\ binary_round_aux prec emax s m e l
       = match m3 with
         | Z0 => S754_zero s
         | Zpos p => if e3 <=? emax - prec then S754_finite s p e3
                     else S754_infinity s
         | Zneg _ => S754_nan
         end.
Proof.
  intros Hm. unfold binary_round_aux, shr_fexp.
  set (n1 := fexp prec emax (Zdigits2 m + e) - e).
  assert (Hm' : 0 <= shr_m (shr_record_of_loc m l)) by now rewrite shr_m_of_loc.
  destruct (shr_spec (shr_record_of_loc m l) e n1 Hm') as (He1 & Hm1 & Hid1).
  destruct (shr (shr_record_of_loc m l) e n1) as [mrs' e'] eqn:Hshr1.
  simpl in He1, Hm1, Hid1. rewrite shr_m_of_loc in Hm1.
  set (m2 := round_nearest_even (shr_m mrs') (loc_of_shr_record mrs')).
  assert (Hm1pos : 0 <= shr_m mrs').
  { rewrite Hm1. apply Z.div_pos; [assumption|]. apply Z.pow_pos_nonneg; lia. }
  assert (Hm2 : m2 = shr_m mrs' \/ m2 = shr_m mrs' + 1)
    by apply round_nearest_even_cases.
  assert (Hm2pos : 0 <= m2) by lia.
  set (n2 := fexp prec emax (Zdigits2 m2 + e') - e').
  assert (Hm2' : 0 <= shr_m (shr_record_of_loc m2 loc_Exact)) by assumption.
  destruct (shr_spec (shr_record_of_loc m2 loc_Exact) e' n2 Hm2')
    as (He2 & Hm3 & _).
  destruct (shr (shr_record_of_loc m2 loc_Exact) e' n2) as [mrs'' e''] eqn:Hshr2.
  simpl in He2, Hm3.
  exists (shr_m mrs''), e''. split; [|reflexivity].
  exists (Z.max n1 0), (Z.max n2 0), m2. repeat split.
  - unfold n2. now rewrite He1.
  - lia.
  - rewrite <- Hm1. exact Hm2.
  - exact Hm3.
  - intros Ha Hl. assert (Hn : n1 <= 0) by lia.
    specialize (Hid1 Hn). subst mrs' l. reflexivity.
Qed.

Lemma rounded_bounds (m e : Z) (l : location) (m3 e3 : Z) :
  0 <= m -> rounded m e l m3 e3 ->
  exists k : Z, 0 <= k /\ e3 = e + k
    /\ 2 ^ k * m3 - 2 ^ k <= m /\ m + 1 <= 2 ^ k * m3 + 2 ^ k.
Proof.
  intros Hm (a & b & m2 & Ha & Hb & He3 & Hm2 & Hm3 & _).
  assert (Ha0 : 0 <= a) by lia. assert (Hb0 : 0 <= b) by lia.
  exists (a + b). split; [lia|]. split; [lia|].
  rewrite Z.pow_add_r by assumption.
  assert (HP : 0 < 2 ^ a) by (apply Z.pow_pos_nonneg; lia).
  assert (HQ : 0 < 2 ^ b) by (apply Z.pow_pos_nonneg; lia).
  pose proof (Z.div_mod m (2 ^ a) ltac:(lia)) as Hd1.
  pose proof (Z.mod_pos_bound m (2 ^ a) HP) as Hr1.
  pose proof (Z.div_mod m2 (2 ^ b) ltac:(lia)) as Hd2.
  pose proof (Z.mod_pos_bound m2 (2 ^ b) HQ) as Hr2.
  rewrite <- Hm3 in Hd2.
  set (P := 2 ^ a) in *. set (Q := 2 ^ b) in *.
  set (m1 := m / P) in *. set (r1 := m mod P) in *. set (r2 := m2 mod Q) in *.
  split; destruct Hm2 as [-> | ->]; nia.
Qed.

Local Open Scope R_scope.

Definition bpow (e : Z) : R := powerRZ 2 e.

Lemma bpow_pos (e : Z) : 0 < bpow e.
Proof. apply powerRZ_lt. lra. Qed.

Lemma bpow_add (a b : Z) : bpow (a + b) = bpow a * bpow b.
Proof. apply powerRZ_add. lra. Qed.

Lemma bpow_IZR (a : Z) : (0 <= a)%Z -> IZR (2 ^ a) = bpow a.
Proof.
  intros Ha. destruct a as [|p|p]; [reflexivity | | lia].
  apply Zpower_pos_powerRZ.
Qed.

(** The result of the rounding is within one unit in its last place. *)
Lemma rounded_value (x : R) (m e : Z) (l : location) (m3 e3 : Z) :
  (0 <= m)%Z -> IZR m <= x < IZR m + 1 -> rounded m e l m3 e3 ->
  Rabs (x * bpow e - IZR m3 * bpow e3) <= bpow e3.
Proof.
  intros Hm Hx Hr.
  destruct (rounded_bounds m e l m3 e3 Hm Hr) as (k & Hk & -> & Hlo & Hhi).
  apply IZR_le in Hlo, Hhi.
  rewrite minus_IZR, mult_IZR, bpow_IZR in Hlo by assumption.
  rewrite !plus_IZR, mult_IZR, bpow_IZR in Hhi by assumption.
  rewrite bpow_add.
  pose proof (bpow_pos e) as He. pose proof (bpow_pos k) as Hk'.
  replace (x * bpow e - IZR m3 * (bpow e * bpow k))
    with (bpow e * (x - bpow k * IZR m3)) by ring.
  rewrite Rabs_mult, (Rabs_pos_eq (bpow e)) by lra.
  apply Rmult_le_compat_l; [lra|].
  apply Rabs_le. lra.
Qed.

(** ** The value of a float *)

Definition sign_of (s : bool) : R := if s then -1 else 1.

Definition SF2R (f : spec_float) : R :=
  match f with
  | S754_finite s m e => sign_of s * IZR (Z.pos m) * bpow e
  | _ => 0
  end.

(** A zero, or a finite number in canonical form. *)
Definition SFfinite (f : spec_float) : Prop :=
  match f with
  | S754_zero _ => True
  | S754_finite _ m e =>
      fexp prec emax (Z.pos (digits2_pos m) + e) = e /\ (e <= emax - prec)%Z
  | _ => False
  end.

Lemma fexp_eq (z : Z) : fexp prec emax z = Z.max (z - 53) (-1074).
Proof. reflexivity. Qed.

Lemma Rabs_sign (s : bool) (x y : R) :
  Rabs (sign_of s * x - sign_of s * y) = Rabs (x - y).
Proof.
  destruct s; simpl.
  - replace (-1 * x - -1 * y) with (- (x - y)) by ring. apply Rabs_Ropp.
  - f_equal. ring.
Qed.

Lemma Rabs_sign_of (s : bool) : Rabs (sign_of s) = 1.
Proof. destruct s; simpl; unfold Rabs; destruct (Rcase_abs _); lra. Qed.

Lemma pos_iter_xO (m d : positive) :
  Z.pos (Pos.iter xO m d) = (Z.pos m * 2 ^ Z.pos d)%Z.
Proof.
  induction d as [|d IH] using Pos.peano_ind.
  - simpl. lia.
  - rewrite Pos.iter_succ, Pos2Z.inj_succ, Z.pow_succ_r by lia.
    rewrite Pos2Z.inj_xO, IH. lia.
Qed.

Lemma shl_align_spec (mx : positive) (ex ex' : Z) :
  exists k : Z, (0 <= k)%Z
    /\ Z.pos (fst (shl_align mx ex ex')) = (Z.pos mx * 2 ^ k)%Z
    /\ ex = (snd (shl_align mx ex ex') + k)%Z
    /\ snd (shl_align mx ex ex') = Z.min ex ex'.
Proof.
  unfold shl_align. destruct (ex' - ex)%Z as [|d|d] eqn:Hd; simpl.
  - exists 0%Z. rewrite Z.pow_0_r. repeat split; lia.
  - exists 0%Z. rewrite Z.pow_0_r. repeat split; lia.
  - exists (Z.pos d). rewrite pos_iter_xO. repeat split; lia.
Qed.

(** A number of at least [2^-1074] units is not rounded to zero. *)
Lemma rounded_not_zero (m : positive) (e : Z) (l : location) (m3 e3 : Z) :
  (-1074 <= e)%Z -> rounded (Z.pos m) e l m3 e3 -> (1 <= m3)%Z.
Proof.
  intros He (a & b & m2 & Ha & Hb & He3 & Hm2 & Hm3 & _).
  rewrite fexp_eq in Ha. rewrite fexp_eq in Hb. simpl Zdigits2 in Ha.
  pose proof (digits2_pos_bounds m) as Hd.
  assert (Hm1 : (1 <= Z.pos m / 2 ^ a)%Z).
  { apply Z.div_le_lower_bound; [apply Z.pow_pos_nonneg; lia|].
    rewrite Z.mul_1_r.
    apply Z.le_trans with (2 ^ (Z.pos (digits2_pos m) - 1))%Z; [|lia].
    apply Z.pow_le_mono_r; lia. }
  assert (Hm2pos : (1 <= m2)%Z) by lia.
  destruct m2 as [|p2|p2]; try lia.
  simpl Zdigits2 in Hb. pose proof (digits2_pos_bounds p2) as Hd2.
  subst m3. apply Z.div_le_lower_bound; [apply Z.pow_pos_nonneg; lia|].
  rewrite Z.mul_1_r.
  apply Z.le_trans with (2 ^ (Z.pos (digits2_pos p2) - 1))%Z; [|lia].
  apply Z.pow_le_mono_r; lia.
Qed.

Definition ulp_bound : R := bpow (-52).

(** A float in canonical form is less than [2^-52] times itself away from
    what it is one unit in the last place away from, unless its exponent is
    the least one. *)
Lemma canonical_cases (m : positive) (e : Z) :
  fexp prec emax (Z.pos (digits2_pos m) + e) = e ->
  (e = -1074)%Z \/ bpow e <= ulp_bound * (IZR (Z.pos m) * bpow e).
Proof.
  rewrite fexp_eq. intros He.
  destruct (Z.eq_dec e (-1074)) as [|Hne]; [now left | right].
  assert (Hd : Z.pos (digits2_pos m) = 53%Z) by lia.
  pose proof (digits2_pos_bounds m) as Hm. rewrite Hd in Hm.
  destruct Hm as [Hm _]. apply IZR_le in Hm.
  change (2 ^ (53 - 1))%Z with (2 ^ 52)%Z in Hm.
  rewrite bpow_IZR in Hm by lia.
  pose proof (bpow_pos e) as Hpe.
  assert (H1 : ulp_bound * bpow 52 = 1).
  { unfold ulp_bound. rewrite <- bpow_add. reflexivity. }
  replace (bpow e) with (ulp_bound * (bpow 52 * bpow e)) at 1
    by (rewrite <- Rmult_assoc, H1; ring).
  apply Rmult_le_compat_l.
  - unfold ulp_bound. pose proof (bpow_pos (-52)). lra.
  - apply Rmult_le_compat_r; lra.
Qed.

Lemma binary_round_error (s : bool) (m : positive) (e : Z) :
  (-1074 <= e)%Z ->
  SFfinite (binary_round prec emax s m e) ->
  Rabs (sign_of s * IZR (Z.pos m) * bpow e
        - SF2R (binary_round prec emax s m e))
  <= ulp_bound * Rabs (SF2R (binary_round prec emax s m e)).
Proof.
  intros He. unfold binary_round.
  destruct (shl_align_spec m e
              (fexp prec emax (Z.pos (digits2_pos m) + e)))
    as (k & Hk & Hmz & Hek & Hez).
  destruct (shl_align m e (fexp prec emax (Z.pos (digits2_pos m) + e)))
    as [mz ez]. cbn [fst snd] in Hmz, Hek, Hez.
  assert (Hez' : (-1074 <= ez)%Z) by (rewrite Hez, fexp_eq; lia).
  destruct (binary_round_aux_rounded s (Z.pos mz) ez loc_Exact ltac:(lia))
    as (m3 & e3 & Hr & ->).
  pose proof (rounded_not_zero mz ez loc_Exact m3 e3 Hez' Hr) as Hm3.
  destruct m3 as [|p3|p3]; try lia.
  destruct (e3 <=? emax - prec)%Z; [|intros []].
  intros [Hcan _]. simpl SF2R.
  assert (Hval : sign_of s * IZR (Z.pos m) * bpow e
                 = sign_of s * (IZR (Z.pos mz) * bpow ez)).
  { rewrite Hmz, mult_IZR, bpow_IZR, Hek, (Z.add_comm ez k), bpow_add by lia.
    ring. }
  rewrite Hval.
  replace (sign_of s * IZR (Z.pos p3) * bpow e3)
    with (sign_of s * (IZR (Z.pos p3) * bpow e3)) by ring.
  rewrite Rabs_sign, Rabs_mult.
  rewrite Rabs_sign_of.
  rewrite Rmult_1_l.
  pose proof (bpow_pos e3) as Hpe3.
  assert (Hp3 : 0 < IZR (Z.pos p3)) by (apply IZR_lt; lia).
  rewrite (Rabs_pos_eq (IZR (Z.pos p3) * bpow e3))
    by (apply Rmult_le_pos; lra).
  destruct (canonical_cases p3 e3 Hcan) as [Hmin | Hulp].
  - destruct Hr as (a & b & m2 & Ha & Hb & He3 & Hm2 & Hm3' & Hex).
    assert (Ha0 : a = 0%Z) by lia. assert (Hb0 : b = 0%Z) by lia.
    assert (Hm2' : m2 = Z.pos mz) by (apply Hex; [assumption | reflexivity]).
    rewrite Hb0, Z.pow_0_r, Z.div_1_r in Hm3'.
    assert (He3' : e3 = ez) by lia.
    rewrite Hm3', Hm2', He3', Rminus_diag, Rabs_R0.
    apply Rmult_le_pos.
    + unfold ulp_bound. pose proof (bpow_pos (-52)). lra.
    + apply Rmult_le_pos; [apply IZR_le; lia | pose proof (bpow_pos ez); lra].
  - apply Rle_trans with (bpow e3); [|exact Hulp].
    apply (rounded_value _ (Z.pos mz) ez loc_Exact); [lia | lra | exact Hr].
Qed.

Lemma ulp_bound_pos : 0 < ulp_bound.
Proof. apply bpow_pos. Qed.

Lemma binary_normalize_error (m e : Z) :
  (-1074 <= e)%Z ->
  SFfinite (binary_normalize prec emax m e false) ->
  Rabs (IZR m * bpow e - SF2R (binary_normalize prec emax m e false))
  <= ulp_bound * Rabs (SF2R (binary_normalize prec emax m e false)).
Proof.
  intros He. destruct m as [|p|p]; simpl binary_normalize.
  - intros _. simpl. rewrite Rmult_0_l, Rminus_diag, Rabs_R0. lra.
  - intros Hf. pose proof (binary_round_error false p e He Hf) as H.
    simpl sign_of in H. now rewrite Rmult_1_l in H.
  - intros Hf. pose proof (binary_round_error true p e He Hf) as H.
    simpl sign_of in H.
    replace (IZR (Z.neg p)) with (-1 * IZR (Z.pos p)); [exact H|].
    change (Z.neg p) with (- Z.pos p)%Z. rewrite opp_IZR. ring.
Qed.

Lemma canonical_exponent (m : positive) (e : Z) :
  fexp prec emax (Z.pos (digits2_pos m) + e) = e -> (-1074 <= e)%Z.
Proof. rewrite fexp_eq. lia. Qed.

(** The aligned mantissa of a float, with its sign. *)
Lemma aligned_value (s : bool) (m : positive) (e ez : Z) :
  (ez <= e)%Z ->
  IZR (cond_Zopp s (Z.pos (fst (shl_align m e ez)))) * bpow ez
  = SF2R (S754_finite s m e).
Proof.
  intros Hez. destruct (shl_align_spec m e ez) as (k & Hk & Hm & He & Hz).
  rewrite Z.min_r in Hz by assumption. rewrite Hz in He.
  simpl SF2R. rewrite He at 2. rewrite (Z.add_comm ez k), bpow_add.
  rewrite <- (bpow_IZR k) by assumption.
  destruct s; unfold cond_Zopp, sign_of.
  - rewrite opp_IZR, Hm, mult_IZR. ring.
  - rewrite Hm, mult_IZR. ring.
Qed.

(** The sum of two finite floats is within [2^-52] times itself of the sum
    of their values, when it is finite. *)
Lemma SFadd_error (x y : spec_float) :
  SFfinite x -> SFfinite y -> SFfinite (SFadd prec emax x y) ->
  Rabs (SF2R x + SF2R y - SF2R (SFadd prec emax x y))
  <= ulp_bound * Rabs (SF2R (SFadd prec emax x y)).
Proof.
  pose proof ulp_bound_pos as Hu.
  destruct x as [sx|sx| |sx mx ex], y as [sy|sy| |sy my ey];
    try (intros [] ; fail); try (intros _ []; fail).
  - intros _ _ _. replace (SF2R (SFadd prec emax (S754_zero sx) (S754_zero sy)))
      with 0 by (destruct sx, sy; reflexivity).
    simpl. rewrite Rplus_0_l, Rminus_diag, Rabs_R0. lra.
  - intros _ _ _. simpl SFadd. simpl (SF2R (S754_zero sx)).
    rewrite Rplus_0_l, Rminus_diag, Rabs_R0.
    apply Rmult_le_pos; [lra | apply Rabs_pos].
  - intros _ _ _. simpl SFadd. simpl (SF2R (S754_zero sy)).
    rewrite Rplus_0_r, Rminus_diag, Rabs_R0.
    apply Rmult_le_pos; [lra | apply Rabs_pos].
  - intros [Hx _] [Hy _]. apply canonical_exponent in Hx, Hy.
    unfold SFadd.
    set (ez := Z.min ex ey).
    rewrite <- (aligned_value sx mx ex ez), <- (aligned_value sy my ey ez)
      by lia.
    rewrite <- Rmult_plus_distr_r, <- plus_IZR.
    apply binary_normalize_error. lia.
Qed.

Lemma SFsub_add_opp (x y : spec_float) :
  SFsub prec emax x y = SFadd prec emax x (SFopp y).
Proof.
  destruct x as [sx|sx| |sx mx ex], y as [sy|sy| |sy my ey]; try reflexivity;
    destruct sx, sy; reflexivity.
Qed.

Lemma SF2R_opp (x : spec_float) : SF2R (SFopp x) = - SF2R x.
Proof.
  destruct x as [s|s| |s m e]; simpl; try lra.
  destruct s; simpl; ring.
Qed.

Lemma SFfinite_opp (x : spec_float) : SFfinite x -> SFfinite (SFopp x).
Proof. destruct x; simpl; auto. Qed.

Lemma SFsub_error (x y : spec_float) :
  SFfinite x -> SFfinite y -> SFfinite (SFsub prec emax x y) ->
  Rabs (SF2R x - SF2R y - SF2R (SFsub prec emax x y))
  <= ulp_bound * Rabs (SF2R (SFsub prec emax x y)).
Proof.
  rewrite SFsub_add_opp. intros Hx Hy Hr.
  pose proof (SFadd_error x (SFopp y) Hx (SFfinite_opp y Hy) Hr) as H.
  now rewrite SF2R_opp in H.
Qed.

(** ** Primitive floats *)

Definition F2R (x : float) : R := SF2R (Prim2SF x).

Lemma finite_SFfinite (x : float) :
  is_finite x = true -> SFfinite (Prim2SF x).
Proof.
  intros H. pose proof (Prim2SF_valid x) as Hv.
  unfold is_finite, is_nan, is_infinity in H.
  rewrite !eqb_spec, abs_spec in H.
  destruct (Prim2SF x) as [s|s| |s m e]; simpl; auto.
  - destruct s; discriminate.
  - discriminate.
  - simpl in Hv. unfold SpecFloat.bounded, canonical_mantissa in Hv.
    apply andb_prop in Hv. destruct Hv as [H1 H2].
    apply Z.eqb_eq in H1. apply Z.leb_le in H2. now split.
Qed.

Theorem add_error (x y : float) :
  is_finite x = true -> is_finite y = true -> is_finite (x + y) = true ->
  Rabs (F2R x + F2R y - F2R (x + y)) <= ulp_bound * Rabs (F2R (x + y)).
Proof.
  intros Hx%finite_SFfinite Hy%finite_SFfinite Hr%finite_SFfinite.
  unfold F2R in *. rewrite add_spec in *. now apply SFadd_error.
Qed.

Theorem sub_error (x y : float) :
  is_finite x = true -> is_finite y = true -> is_finite (x - y) = true ->
  Rabs (F2R x - F2R y - F2R (x - y)) <= ulp_bound * Rabs (F2R (x - y)).
Proof.
  intros Hx%finite_SFfinite Hy%finite_SFfinite Hr%finite_SFfinite.
  unfold F2R in *. rewrite sub_spec in *. now apply SFsub_error.
Qed.

Lemma ulp_bound_eq : ulp_bound = / 4503599627370496.
Proof. unfold ulp_bound, bpow. simpl. lra. Qed.

Lemma bpow_minus_50 : bpow (-50) = / 1125899906842624.
Proof. unfold bpow. simpl. lra. Qed.

(** ** Products and quotients *)

Local Open Scope R_scope.

Lemma normal_ulp (m : positive) (e : Z) :
  Z.pos (digits2_pos m) = 53%Z ->
  bpow e <= ulp_bound * (IZR (Z.pos m) * bpow e).
Proof.
  intros Hd. pose proof (digits2_pos_bounds m) as Hm. rewrite Hd in Hm.
  destruct Hm as [Hm _]. apply IZR_le in Hm.
  change (2 ^ (53 - 1))%Z with (2 ^ 52)%Z in Hm.
  rewrite bpow_IZR in Hm by lia.
  pose proof (bpow_pos e) as Hpe.
  assert (H1 : ulp_bound * bpow 52 = 1).
  { unfold ulp_bound. rewrite <- bpow_add. reflexivity. }
  replace (bpow e) with (ulp_bound * (bpow 52 * bpow e)) at 1
    by (rewrite <- Rmult_assoc, H1; ring).
  apply Rmult_le_compat_l.
  - pose proof ulp_bound_pos. lra.
  - apply Rmult_le_compat_r; lra.
Qed.

(** A normal number: finite, not zero, with a mantissa of 53 bits. *)
Definition SFnormal (f : spec_float) : Prop :=
  match f with
  | S754_finite _ m _ => Z.pos (digits2_pos m) = 53%Z
  | _ => False
  end.

Definition is_normal (x : float) : bool :=
  match classify x with
  | FloatClass.PNormal | FloatClass.NNormal => true
  | _ => false
  end.

Lemma is_normal_spec (x : float) :
  is_normal x = true -> SFnormal (Prim2SF x).
Proof.
  unfold is_normal. rewrite classify_spec. unfold SF64classify, SFclassify.
  destruct (Prim2SF x) as [s|s| |s m e]; try (destruct s; discriminate);
    try discriminate.
  unfold SFnormal.
  destruct s; destruct (Z.pos (digits2_pos m) =? prec)%Z eqn:H;
    try discriminate; intros _; apply Z.eqb_eq in H; exact H.
Qed.

Lemma sign_of_xorb (a b : bool) : sign_of (xorb a b) = sign_of a * sign_of b.
Proof. destruct a, b; simpl; lra. Qed.

(** What is rounded, within one unit in the last place of a normal result. *)
Lemma rounded_normal (s : bool) (x : R) (m e : Z) (l : location) :
  (0 <= m)%Z -> IZR m <= x < IZR m + 1 ->
  SFnormal (binary_round_aux prec emax s m e l) ->
  Rabs (sign_of s * (x * bpow e)
        - SF2R (binary_round_aux prec emax s m e l))
  <= ulp_bound * Rabs (SF2R (binary_round_aux prec emax s m e l)).
Proof.
  intros Hm Hx.
  destruct (binary_round_aux_rounded s m e l Hm) as (m3 & e3 & Hr & ->).
  destruct m3 as [|p3|p3]; try (intros []; fail).
  destruct (e3 <=? emax - prec)%Z; [|intros []].
  intros Hd. simpl SF2R.
  replace (sign_of s * IZR (Z.pos p3) * bpow e3)
    with (sign_of s * (IZR (Z.pos p3) * bpow e3)) by ring.
  rewrite Rabs_sign, Rabs_mult, Rabs_sign_of, Rmult_1_l.
  pose proof (bpow_pos e3) as Hpe3.
  assert (Hp3 : 0 < IZR (Z.pos p3)) by (apply IZR_lt; lia).
  rewrite (Rabs_pos_eq (IZR (Z.pos p3) * bpow e3))
    by (apply Rmult_le_pos; lra).
  apply Rle_trans with (bpow e3); [|now apply normal_ulp].
  now apply (rounded_value x m e l).
Qed.

Lemma SFmul_error (x y : spec_float) :
  SFnormal (SFmul prec emax x y) ->
  Rabs (SF2R x * SF2R y - SF2R (SFmul prec emax x y))
  <= ulp_bound * Rabs (SF2R (SFmul prec emax x y)).
Proof.
  destruct x as [sx|sx| |sx mx ex], y as [sy|sy| |sy my ey];
    try (intros []; fail).
  unfold SFmul. intros Hn.
  pose proof (rounded_normal (xorb sx sy) (IZR (Z.pos (mx * my)))
                (Z.pos (mx * my)) (ex + ey) loc_Exact
                ltac:(lia) ltac:(lra) Hn) as H.
  replace (SF2R (S754_finite sx mx ex) * SF2R (S754_finite sy my ey))
    with (sign_of (xorb sx sy)
          * (IZR (Z.pos (mx * my)) * bpow (ex + ey))); [exact H|].
  simpl SF2R. rewrite sign_of_xorb, bpow_add, Pos2Z.inj_mul, mult_IZR. ring.
Qed.

Lemma SFdiv_core_spec (m1 m2 : positive) (e1 e2 : Z) :
  let '(q, e, l) := SFdiv_core_binary prec emax (Z.pos m1) e1 (Z.pos m2) e2 in
  (0 <= q)%Z
  /\ IZR q * bpow e <= IZR (Z.pos m1) * bpow e1 / (IZR (Z.pos m2) * bpow e2)
     < (IZR q + 1) * bpow e.
Proof.
  unfold SFdiv_core_binary.
  set (e' := Z.min _ _). set (s := (e1 - e2 - e')%Z).
  assert (Hs : (0 <= s)%Z) by (unfold s, e'; lia).
  assert (He1 : bpow e1 = bpow s * bpow e' * bpow e2).
  { rewrite <- !bpow_add. f_equal. unfold s. lia. }
  clearbody s. clearbody e'.
  set (m' := match s with
             | 0%Z => Z.pos m1
             | Z.pos _ => Z.shiftl (Z.pos m1) s
             | Z.neg _ => 0%Z
             end).
  assert (Hm' : m' = (Z.pos m1 * 2 ^ s)%Z).
  { unfold m'. destruct s as [|p|p]; try lia.
    apply Z.shiftl_mul_pow2. lia. }
  clearbody m'.
  pose proof (Z_div_mod m' (Z.pos m2) ltac:(lia)) as Hdiv.
  destruct (Z.div_eucl m' (Z.pos m2)) as [q r]. destruct Hdiv as [Hq Hr].
  assert (Hq0 : (0 <= q)%Z) by nia.
  split; [exact Hq0|].
  pose proof (bpow_pos e') as Hpe. pose proof (bpow_pos e2) as Hp2.
  assert (Hm2 : 0 < IZR (Z.pos m2)) by (apply IZR_lt; lia).
  assert (Hval : IZR (Z.pos m1) * bpow e1 / (IZR (Z.pos m2) * bpow e2)
                 = IZR m' / IZR (Z.pos m2) * bpow e').
  { rewrite He1, Hm', mult_IZR, bpow_IZR by assumption. field. lra. }
  rewrite Hval.
  assert (Hlo : IZR q <= IZR m' / IZR (Z.pos m2)).
  { apply Rmult_le_reg_r with (IZR (Z.pos m2)); [assumption|].
    unfold Rdiv. rewrite Rmult_assoc, Rinv_l, Rmult_1_r by lra.
    rewrite <- mult_IZR. apply IZR_le. lia. }
  assert (Hhi : IZR m' / IZR (Z.pos m2) < IZR q + 1).
  { apply Rmult_lt_reg_r with (IZR (Z.pos m2)); [assumption|].
    unfold Rdiv. rewrite Rmult_assoc, Rinv_l, Rmult_1_r by lra.
    rewrite <- (plus_IZR q 1), <- mult_IZR. apply IZR_lt. lia. }
  split.
  - apply Rmult_le_compat_r; lra.
  - apply Rmult_lt_compat_r; lra.
Qed.

Lemma SFdiv_error (x y : spec_float) :
  SFnormal (SFdiv prec emax x y) ->
  Rabs (SF2R x / SF2R y - SF2R (SFdiv prec emax x y))
  <= ulp_bound * Rabs (SF2R (SFdiv prec emax x y)).
Proof.
  destruct x as [sx|sx| |sx mx ex], y as [sy|sy| |sy my ey];
    try (intros []; fail).
  unfold SFdiv.
  pose proof (SFdiv_core_spec mx my ex ey) as Hc.
  destruct (SFdiv_core_binary prec emax (Z.pos mx) ex (Z.pos my) ey)
    as [[q e] l].
  destruct Hc as (Hq & Hlo & Hhi). intros Hn.
  pose proof (bpow_pos e) as Hpe. pose proof (bpow_pos ey) as Hpy.
  assert (Hmy : 0 < IZR (Z.pos my)) by (apply IZR_lt; lia).
  set (v := IZR (Z.pos mx) * bpow ex / (IZR (Z.pos my) * bpow ey)) in *.
  assert (Hx : IZR q <= v / bpow e < IZR q + 1).
  { split.
    - apply Rmult_le_reg_r with (bpow e); [assumption|].
      unfold Rdiv at 1. rewrite Rmult_assoc, Rinv_l, Rmult_1_r by lra. lra.
    - apply Rmult_lt_reg_r with (bpow e); [assumption|].
      unfold Rdiv at 1. rewrite Rmult_assoc, Rinv_l, Rmult_1_r by lra. lra. }
  pose proof (rounded_normal (xorb sx sy) (v / bpow e) q e l Hq Hx Hn) as H.
  replace (SF2R (S754_finite sx mx ex) / SF2R (S754_finite sy my ey))
    with (sign_of (xorb sx sy) * (v / bpow e * bpow e)); [exact H|].
  unfold v. simpl SF2R. rewrite sign_of_xorb.
  destruct sx, sy; simpl sign_of; field; lra.
Qed.

(** ** Products by 1 and by -1 are exact *)

Local Open Scope Z_scope.

Lemma digits2_pos_unique (p : positive) (d : Z) :
  2 ^ (d - 1) <= Z.pos p < 2 ^ d -> Z.pos (digits2_pos p) = d.
Proof.
  intros [Hlo Hhi]. pose proof (digits2_pos_bounds p) as [Hlo' Hhi'].
  destruct (Z.lt_trichotomy (Z.pos (digits2_pos p)) d) as [H | [H | H]];
    [exfalso | assumption | exfalso].
  - assert (2 ^ Z.pos (digits2_pos p) <= 2 ^ (d - 1))
      by (apply Z.pow_le_mono_r; lia). lia.
  - assert (2 ^ d <= 2 ^ (Z.pos (digits2_pos p) - 1))
      by (apply Z.pow_le_mono_r; lia). lia.
Qed.

(** The mantissa, and whether a bit was shifted out. *)
Definition shifted (r : shr_record) : Z * bool :=
  (shr_m r, shr_r r || shr_s r).

Definition shift_step (mb : Z * bool) : Z * bool :=
  (Z.quot2 (fst mb), Z.odd (fst mb) || snd mb).

Lemma shr_1_shifted (r : shr_record) :
  shifted (shr_1 r) = shift_step (shifted r).
Proof.
  destruct r as [m r s]. unfold shifted, shift_step.
  destruct m as [|[p|p|]|[p|p|]]; simpl; try reflexivity;
    now rewrite ?orb_false_r, ?orb_true_r.
Qed.

Lemma shift_step_even (p : positive) (k : Z) :
  0 <= k -> Pos.iter shift_step (2 ^ Z.pos p * k, false) p = (k, false).
Proof.
  revert k. induction p as [|p IH] using Pos.peano_ind; intros k Hk.
  - cbn [Pos.iter]. unfold shift_step. cbn [fst snd].
    change (2 ^ 1) with 2.
    rewrite Zquot2_quot, Z.quot_div_nonneg by lia.
    rewrite Z.mul_comm, Z.div_mul by lia.
    rewrite Z.odd_mul. simpl. now rewrite andb_false_r.
  - rewrite Pos.iter_succ, Pos2Z.inj_succ, Z.pow_succ_r by lia.
    replace (2 * 2 ^ Z.pos p * k) with (2 ^ Z.pos p * (2 * k)) by ring.
    rewrite IH by lia. unfold shift_step. cbn [fst snd].
    rewrite Zquot2_quot, Z.quot_div_nonneg by lia.
    rewrite Z.mul_comm, Z.div_mul by lia.
    rewrite Z.odd_mul. simpl. now rewrite andb_false_r.
Qed.

(** Shifting out zeros is exact. *)
Lemma shr_exact (k e : Z) (p : positive) :
  0 <= k ->
  shr (shr_record_of_loc (2 ^ Z.pos p * k) loc_Exact) e (Z.pos p)
  = (shr_record_of_loc k loc_Exact, e + Z.pos p).
Proof.
  intros Hk. simpl shr. f_equal.
  pose proof (iter_pos_map _ _ shr_1 shift_step shifted shr_1_shifted p
                (shr_record_of_loc (2 ^ Z.pos p * k) loc_Exact)) as H.
  change (shifted (shr_record_of_loc (2 ^ Z.pos p * k) loc_Exact))
    with (2 ^ Z.pos p * k, false) in H.
  rewrite shift_step_even in H by lia.
  destruct (SpecFloat.iter_pos shr_1 p _) as [m r s].
  unfold shifted in H. cbn [shr_m shr_r shr_s] in H. injection H as -> Hb.
  apply orb_false_elim in Hb. destruct Hb as [-> ->]. reflexivity.
Qed.

(** The product of a float in canonical form and [+-2^52 * 2^-52]. *)
Lemma SFmul_unit (s sy : bool) (m : positive) (e : Z) :
  fexp prec emax (Z.pos (digits2_pos m) + e) = e -> e <= emax - prec ->
  SFmul prec emax (S754_finite s m e)
    (S754_finite sy 4503599627370496 (-52))
  = S754_finite (xorb s sy) m e.
Proof.
  intros Hcan He. unfold SFmul, binary_round_aux, shr_fexp.
  assert (Hd : Zdigits2 (Z.pos (m * 4503599627370496))
               = Z.pos (digits2_pos m) + 52).
  { simpl Zdigits2. apply digits2_pos_unique.
    pose proof (digits2_pos_bounds m) as [Hlo Hhi].
    rewrite Pos2Z.inj_mul. change (Z.pos 4503599627370496) with (2 ^ 52).
    replace (Z.pos (digits2_pos m) + 52 - 1)
      with (Z.pos (digits2_pos m) - 1 + 52) by lia.
    rewrite !Z.pow_add_r by lia. nia. }
  rewrite Hd.
  replace (Z.pos (digits2_pos m) + 52 + (e + -52))
    with (Z.pos (digits2_pos m) + e) by lia.
  rewrite Hcan.
  replace (e - (e + -52)) with (Z.pos 52) by lia.
  replace (Z.pos (m * 4503599627370496)) with (2 ^ Z.pos 52 * Z.pos m)
    by (rewrite Pos2Z.inj_mul;
        change (2 ^ Z.pos 52) with (Z.pos 4503599627370496); lia).
  rewrite shr_exact by lia.
  replace (e + -52 + Z.pos 52) with e by lia.
  cbn [shr_m shr_record_of_loc loc_of_shr_record round_nearest_even Zdigits2].
  rewrite Hcan, Z.sub_diag. cbn [shr shr_m shr_record_of_loc].
  apply Z.leb_le in He. now rewrite He.
Qed.

Local Open Scope R_scope.

(** ** Primitive floats: products and quotients *)

Local Open Scope float_scope.

(** A finite number other than zero. *)
Definition SFnonzero (f : spec_float) : Prop :=
  match f with
  | S754_finite _ _ _ => True
  | _ => False
  end.

Lemma SFnormal_nonzero (f : spec_float) : SFnormal f -> SFnonzero f.
Proof. now destruct f. Qed.

Lemma SFnormal_opp (f : spec_float) : SFnormal (SFopp f) -> SFnormal f.
Proof. now destruct f. Qed.

Lemma normal_nonzero (x : float) :
  is_normal x = true -> SFnonzero (Prim2SF x).
Proof. intros H. now apply SFnormal_nonzero, is_normal_spec. Qed.

Lemma nonzero_finite (x : float) :
  SFnonzero (Prim2SF x) -> is_finite x = true.
Proof.
  intros H. rewrite FloatFacts.is_finite_spec.
  now destruct (Prim2SF x).
Qed.

Lemma nonzero_not_zero (x : float) :
  SFnonzero (Prim2SF x) -> (x =? 0) = false.
Proof.
  intros H. rewrite eqb_spec. change (Prim2SF 0) with (S754_zero false).
  destruct (Prim2SF x) as [| | |s m e]; try contradiction. now destruct s.
Qed.

Lemma nonzero_truthy (x : float) :
  SFnonzero (Prim2SF x) -> Float64.to_boolean x = true.
Proof.
  intros H. unfold Float64.to_boolean. rewrite (nonzero_not_zero x H).
  unfold is_nan. rewrite eqb_spec.
  destruct (Prim2SF x) as [| | |s m e]; try contradiction.
  now rewrite FloatFacts.SFeqb_refl_finite.
Qed.

Lemma nonzero_value (x : float) :
  SFnonzero (Prim2SF x) -> (F2R x <> 0)%R.
Proof.
  unfold F2R. destruct (Prim2SF x) as [| | |s m e]; try contradiction.
  intros _. simpl. pose proof (bpow_pos e). pose proof (IZR_lt 0 (Z.pos m)).
  assert (0 < IZR (Z.pos m))%R by (apply H0; lia).
  assert (0 < IZR (Z.pos m) * bpow e)%R by now apply Rmult_lt_0_compat.
  rewrite Rmult_assoc. destruct s; simpl; lra.
Qed.

Lemma mul_nonzero (x y : float) :
  SFnonzero (Prim2SF (x * y)) ->
  SFnonzero (Prim2SF x) /\ SFnonzero (Prim2SF y).
Proof.
  rewrite mul_spec.
  destruct (Prim2SF x) as [sx|sx| |sx mx ex], (Prim2SF y) as [sy|sy| |sy my ey];
    simpl; tauto.
Qed.

Lemma div_nonzero (x y : float) :
  SFnonzero (Prim2SF (x / y)) ->
  SFnonzero (Prim2SF x) /\ SFnonzero (Prim2SF y).
Proof.
  rewrite div_spec.
  destruct (Prim2SF x) as [sx|sx| |sx mx ex], (Prim2SF y) as [sy|sy| |sy my ey];
    simpl; tauto.
Qed.

Theorem mul_error (x y : float) :
  is_normal (x * y) = true ->
  (Rabs (F2R x * F2R y - F2R (x * y)) <= ulp_bound * Rabs (F2R (x * y)))%R.
Proof.
  intros H%is_normal_spec. unfold F2R. rewrite mul_spec in *.
  now apply SFmul_error.
Qed.

Theorem div_error (x y : float) :
  is_normal (x / y) = true ->
  (Rabs (F2R x / F2R y - F2R (x / y)) <= ulp_bound * Rabs (F2R (x / y)))%R.
Proof.
  intros H%is_normal_spec. unfold F2R. rewrite div_spec in *.
  now apply SFdiv_error.
Qed.

(** The products by [1] and by [-1] are exact. *)
Lemma mul_unit (x : float) (sy : bool) (y : float) :
  Prim2SF y = S754_finite sy 4503599627370496 (-52) ->
  Prim2SF (x * y) = if sy then SFopp (Prim2SF x) else Prim2SF x.
Proof.
  intros Hy. rewrite mul_spec, Hy. unfold SF64mul.
  pose proof (Prim2SF_valid x) as Hv.
  destruct (Prim2SF x) as [s|s| |s m e].
  - now destruct s, sy.
  - now destruct s, sy.
  - now destruct sy.
  - simpl in Hv. unfold SpecFloat.bounded, canonical_mantissa in Hv.
    apply andb_prop in Hv. destruct Hv as [H1 H2].
    apply Z.eqb_eq in H1. apply Z.leb_le in H2.
    rewrite (SFmul_unit s sy m e H1 H2). now destruct s, sy.
Qed.

Lemma mul_one_r (x : float) : x * 1 = x.
Proof. apply Prim2SF_inj. now rewrite (mul_unit x false 1). Qed.

Lemma mul_minus_one_r (x : float) : x * -1 = - x.
Proof. apply Prim2SF_inj. now rewrite (mul_unit x true (-1)), opp_spec. Qed.

(** [1 + rate * 0] is [1], for a finite rate. *)
Lemma one_plus_zero (x : float) : is_finite x = true -> 1 + x * 0 = 1.
Proof.
  intros Hx%FloatFacts.finite_spec. apply Prim2SF_inj.
  rewrite add_spec, mul_spec. change (Prim2SF 0) with (S754_zero false).
  destruct (Prim2SF x) as [s|s| |s m e]; try discriminate;
    destruct s; reflexivity.
Qed.

Lemma F2R_one : F2R 1 = 1%R.
Proof.
  unfold F2R.
  change (Prim2SF 1) with (S754_finite false 4503599627370496 (-52)).
  unfold SF2R, sign_of, bpow. simpl. lra.
Qed.

Lemma F2R_opp (x : float) : F2R (- x) = (- F2R x)%R.
Proof. unfold F2R. rewrite opp_spec. apply SF2R_opp. Qed.

Lemma is_finite_opp (x : float) : is_finite (- x) = is_finite x.
Proof.
  rewrite !FloatFacts.is_finite_spec, opp_spec. now destruct (Prim2SF x).
Qed.

Local Open Scope R_scope.

(** ** A chain of roundings *)

(** [y] is [x] rounded: within one unit in the last place of [y]. *)
Definition rnd (x y : R) : Prop := Rabs (x - y) <= ulp_bound * Rabs y.

(** A rounded value is the exact one up to a factor close to [1]. *)
Lemma rnd_factor (x y : R) :
  rnd x y -> exists r, 1 - ulp_bound <= r <= 1 + ulp_bound /\ x = y * r.
Proof.
  unfold rnd. intros H. pose proof ulp_bound_pos as Hu.
  destruct (Req_dec y 0) as [-> | Hy].
  - exists 1. split; [lra |].
    rewrite Rabs_R0, Rmult_0_r in H. rewrite Rminus_0_r in H.
    pose proof (Rabs_pos x).
    assert (Rabs x = 0) by lra.
    destruct (Req_dec x 0) as [-> | Hx]; [ring |].
    apply Rabs_no_R0 in Hx. contradiction.
  - exists (x / y). split; [| field; assumption].
    assert (Hy' : 0 < Rabs y) by now apply Rabs_pos_lt.
    assert (Hq : Rabs (x / y - 1) <= ulp_bound).
    { replace (x / y - 1) with ((x - y) * / y) by (field; assumption).
      rewrite Rabs_mult, Rabs_inv.
      apply Rmult_le_reg_r with (Rabs y); [assumption |].
      rewrite Rmult_assoc, Rinv_l by lra. lra. }
    unfold Rabs in Hq. destruct (Rcase_abs (x / y - 1)); lra.
Qed.

Definition near (n : R) (r : R) : Prop :=
  1 - n * ulp_bound <= r <= 1 + 17 / 16 * n * ulp_bound.

Lemma near_one (r : R) :
  1 - ulp_bound <= r <= 1 + ulp_bound -> near 1 r.
Proof. unfold near. pose proof ulp_bound_pos. lra. Qed.

Lemma near_mul (n r s : R) :
  1 <= n <= 8 -> near n r -> 1 - ulp_bound <= s <= 1 + ulp_bound ->
  near (n + 1) (r * s).
Proof.
  unfold near. rewrite ulp_bound_eq. intros Hn Hr Hs.
  set (u := / 4503599627370496) in *.
  assert (Hu : 0 < u <= / 1000) by (unfold u; lra).
  assert (Hnu : 0 <= n * u <= / 100) by nra.
  assert (Hnuu : 0 <= n * u * u <= u / 100) by nra.
  assert (Hlo : (1 - n * u) * (1 - u) <= r * s)
    by (apply Rmult_le_compat; lra).
  assert (Hhi : r * s <= (1 + 17 / 16 * n * u) * (1 + u))
    by (apply Rmult_le_compat; lra).
  split; nra.
Qed.

Lemma bpow_minus_47 : bpow (-47) = / 140737488355328.
Proof. unfold bpow. simpl. lra. Qed.

Lemma Rabs_triang_sub (a b : R) : Rabs a <= Rabs b + Rabs (b - a).
Proof. unfold Rabs. repeat destruct (Rcase_abs _); lra. Qed.

(** The roundings of [FV] and of [PV] of its opposite, on the real values
    of the intermediate results. *)
Section Chain.

Variables PV0 T R C K W H0 A G0 G1 B F H C1 C2 D Q : R.

Hypothesis R_not_zero : R <> 0.
Hypothesis T_not_zero : T <> 0.

Hypothesis rA : rnd (PV0 * T) A.
Hypothesis rG0 : rnd (C * K) G0.
Hypothesis rW : rnd (T - 1) W.
Hypothesis rG1 : rnd (G0 * W) G1.
Hypothesis rB : rnd (G1 / R) B.
Hypothesis rF : rnd (A + B) F.
Hypothesis rH0 : rnd (1 - T) H0.
Hypothesis rH : rnd (H0 / R) H.
Hypothesis rC1 : rnd (H * C) C1.
Hypothesis rC2 : rnd (C1 * K) C2.
Hypothesis rD : rnd (C2 - - F) D.
Hypothesis rQ : rnd (D / T) Q.

(** The payments, as [PV] discounts them, are the opposite of the payments
    as [FV] accumulates them, up to eight roundings. *)
Lemma payments_cancel : Rabs (C2 + B) <= 9 * ulp_bound * Rabs B.
Proof.
  destruct (rnd_factor _ _ rG0) as (r2 & B2 & E2).
  destruct (rnd_factor _ _ rG1) as (r3 & B3 & E3).
  destruct (rnd_factor _ _ rB) as (r4 & B4 & E4).
  destruct (rnd_factor _ _ rW) as (r6 & B6 & E6).
  destruct (rnd_factor _ _ rH0) as (r7 & B7 & E7).
  destruct (rnd_factor _ _ rH) as (r8 & B8 & E8).
  destruct (rnd_factor _ _ rC1) as (r9 & B9 & E9).
  destruct (rnd_factor _ _ rC2) as (r10 & B10 & E10).
  set (n := r2 * r3 * r4 * r6). set (d := r10 * r9 * r8 * r7).
  assert (Hn : near (1 + 1 + 1 + 1) n)
    by (unfold n; repeat (apply near_mul; [lra | | assumption]);
        now apply near_one).
  assert (Hd : near (1 + 1 + 1 + 1) d)
    by (unfold d; repeat (apply near_mul; [lra | | assumption]);
        now apply near_one).
  assert (E4' : G1 = B * r4 * R) by (rewrite <- E4; field; assumption).
  assert (E8' : H0 = H * r8 * R) by (rewrite <- E8; field; assumption).
  assert (S1 : C2 * r10 * r9 = H * C * K).
  { rewrite <- E10. replace (C1 * K * r9) with (C1 * r9 * K) by ring.
    now rewrite <- E9. }
  assert (S2 : C2 * d * R = (1 - T) * (C * K)).
  { unfold d.
    replace (C2 * (r10 * r9 * r8 * r7) * R)
      with (C2 * r10 * r9 * r8 * R * r7) by ring.
    rewrite S1.
    replace (H * C * K * r8 * R * r7) with (H * r8 * R * r7 * (C * K)) by ring.
    now rewrite <- E8', <- E7. }
  assert (S3 : (T - 1) * (C * K) = B * n * R).
  { rewrite E6, E2.
    replace (W * r6 * (G0 * r2)) with (G0 * W * r6 * r2) by ring.
    rewrite E3, E4'. unfold n. ring. }
  assert (S4 : C2 * d = - (B * n)).
  { apply Rmult_eq_reg_r with R; [| assumption].
    rewrite S2.
    replace ((1 - T) * (C * K)) with (- ((T - 1) * (C * K))) by ring.
    rewrite S3. ring. }
  assert (S5 : (C2 + B) * d = B * (d - n)).
  { replace ((C2 + B) * d) with (C2 * d + B * d) by ring. rewrite S4. ring. }
  unfold near in Hn, Hd. revert Hn Hd. rewrite ulp_bound_eq. intros Hn Hd.
  assert (Hdn : Rabs (d - n) <= 33 / 4 * / 4503599627370496)
    by (unfold Rabs; destruct (Rcase_abs _); lra).
  assert (Hd0 : Rabs d = d) by (apply Rabs_pos_eq; lra).
  apply (f_equal Rabs) in S5. rewrite !Rabs_mult, Hd0 in S5.
  pose proof (Rabs_pos (C2 + B)) as P1. pose proof (Rabs_pos B) as P2.
  assert (H1 : Rabs (C2 + B) * (1 - (1 + 1 + 1 + 1) * / 4503599627370496)
               <= Rabs (C2 + B) * d)
    by (apply Rmult_le_compat_l; lra).
  assert (H2 : Rabs B * Rabs (d - n)
               <= Rabs B * (33 / 4 * / 4503599627370496))
    by (apply Rmult_le_compat_l; lra).
  lra.
Qed.

(** [PV] of the opposite of [FV] is the opposite of the present value, up
    to the roundings. *)
Lemma inverse_bound :
  Rabs (- Q - - PV0) <= bpow (-47) * (Rabs PV0 + Rabs B / Rabs T).
Proof.
  pose proof payments_cancel as Hc.
  assert (HT : 0 < Rabs T) by now apply Rabs_pos_lt.
  assert (rY : Rabs (D - Q * T) <= ulp_bound * Rabs (Q * T)).
  { unfold rnd in rQ. rewrite Rabs_mult.
    replace (D - Q * T) with ((D / T - Q) * T) by (field; assumption).
    rewrite Rabs_mult, <- Rmult_assoc.
    apply Rmult_le_compat_r; lra. }
  unfold rnd in rA, rF, rD. revert Hc rA rF rD rY.
  set (X := PV0 * T). set (Y := Q * T). intros Hc rA' rF' rD' rY.
  assert (Hsum : Rabs (Y - X)
                 <= Rabs (D - Y) + Rabs (C2 - - F - D) + Rabs (A + B - F)
                    + Rabs (X - A) + Rabs (C2 + B))
    by (unfold Rabs; repeat destruct (Rcase_abs _); lra).
  pose proof (Rabs_triang_sub A X) as TA.
  assert (TF : Rabs F <= Rabs A + Rabs B + Rabs (A + B - F))
    by (unfold Rabs; repeat destruct (Rcase_abs _); lra).
  assert (TC : Rabs C2 <= Rabs B + Rabs (C2 + B))
    by (unfold Rabs; repeat destruct (Rcase_abs _); lra).
  assert (TD : Rabs D <= Rabs C2 + Rabs F + Rabs (C2 - - F - D))
    by (unfold Rabs; repeat destruct (Rcase_abs _); lra).
  pose proof (Rabs_triang_sub Y D) as TY.
  assert (HXY : Rabs (Y - X) <= bpow (-47) * (Rabs X + Rabs B)).
  { rewrite bpow_minus_47. revert Hc rA' rF' rD' rY Hsum TA TF TC TD TY.
    rewrite ulp_bound_eq.
    pose proof (Rabs_pos X). pose proof (Rabs_pos B).
    pose proof (Rabs_pos A). pose proof (Rabs_pos F).
    pose proof (Rabs_pos C2). pose proof (Rabs_pos D).
    pose proof (Rabs_pos Y).
    generalize dependent (Rabs (Y - X)). generalize dependent (Rabs (D - Y)).
    generalize dependent (Rabs (C2 - - F - D)).
    generalize dependent (Rabs (A + B - F)).
    generalize dependent (Rabs (X - A)). generalize dependent (Rabs (C2 + B)).
    generalize dependent (Rabs X). generalize dependent (Rabs Y).
    generalize dependent (Rabs A). generalize dependent (Rabs B).
    generalize dependent (Rabs F). generalize dependent (Rabs C2).
    generalize dependent (Rabs D). intros. lra. }
  apply Rmult_le_reg_r with (Rabs T); [assumption |].
  rewrite <- Rabs_mult.
  replace ((- Q - - PV0) * T) with (- (Y - X)) by (unfold X, Y; ring).
  rewrite Rabs_Ropp.
  replace (bpow (-47) * (Rabs PV0 + Rabs B / Rabs T) * Rabs T)
    with (bpow (-47) * (Rabs PV0 * Rabs T + Rabs B)) by (field; lra).
  rewrite <- Rabs_mult. exact HXY.
Qed.

End Chain.

End Rounding.

(** * The claims *)

#[local] Set Warnings "-inexact-float".

(** ** The payment of a loan of 10000 over 36 periods at 1% *)

Section Loan.

Open Scope float_scope.

(** C1, refuted as stated: [PMT(0.01, 36, 10000, 0, 0)] is not within a
    thousandth of -332.143; it is not negative at all. *)
Lemma PMT_loan_not_negative :
  close_to 0.001
    (PMT JS (Num 0.01) (Num 36) (Num 10000) (Num 0) (Num 0)) (-332.143) = false
  /\ (PMT JS (Num 0.01) (Num 36) (Num 10000) (Num 0) (Num 0) <? 0) = false.
Proof. split; vm_compute; reflexivity. Qed.

Lemma PMT_loan_float :
  close_to 0.001
    (PMT JS (Num 0.01) (Num 36) (Num 10000) (Num 0) (Num 0)) 332.143 = true.
Proof. vm_compute. reflexivity. Qed.

End Loan.

Section LoanExact.

Open Scope R_scope.

Lemma power_loan : 1.4307687 < (1 + 1 / 100) ^ 36 < 1.4307688.
Proof. simpl pow. lra. Qed.

Lemma annuity_bounds (t : R) :
  1.4307687 < t < 1.4307688 ->
  332.143 < 0 * (1 / 100) / (t - 1) + 10000 * (1 / 100) / (1 - 1 / t) < 332.144.
Proof.
  intros [Hl Hu].
  replace (0 * (1 / 100) / (t - 1) + 10000 * (1 / 100) / (1 - 1 / t))
    with (100 * t / (t - 1)) by (field; lra).
  split.
  - apply Rmult_lt_reg_r with (t - 1); [lra|].
    replace (100 * t / (t - 1) * (t - 1)) with (100 * t) by (field; lra). lra.
  - apply Rmult_lt_reg_r with (t - 1); [lra|].
    replace (100 * t / (t - 1) * (t - 1)) with (100 * t) by (field; lra). lra.
Qed.

(** In exact arithmetic, with the real power for [Math.pow], the payment is
    between 332.143 and 332.144. *)
Lemma PMT_loan_exact :
  332.143
  < PMT (Exact Rpower) (Num (1 / 100)) (Num 36) (Num 10000) (Num 0) (Num 0)
  < 332.144.
Proof.
  unfold PMT.
  pose proof (or_zero_zero (Exact Rpower)) as Hz. simpl in Hz. rewrite !Hz.
  simpl. rewrite (Real.strict_eq_false (1 / 100) 0) by lra.
  rewrite (Real.strict_eq_false 0 1) by lra.
  replace 36 with (INR 36) by (simpl; lra).
  rewrite Rpower_pow by lra.
  apply annuity_bounds, power_loan.
Qed.

End LoanExact.

(** C1, amended: [PMT(0.01, 36, 10000, 0, 0)] is approximately 332.143, a
    positive payment: within a thousandth of it in binary64 with [Math_pow],
    and between 332.143 and 332.144 in exact arithmetic. *)
Theorem PMT_loan :
  close_to 0.001
    (PMT JS (Num 0.01%float) (Num 36%float) (Num 10000%float) (Num 0%float)
       (Num 0%float)) 332.143%float = true
  /\ (332.143
      < PMT (Exact Rpower) (Num (1 / 100)) (Num 36) (Num 10000) (Num 0) (Num 0)
      < 332.144)%R.
Proof. split; [exact PMT_loan_float | exact PMT_loan_exact]. Qed.

(** ** Present value of a future value *)

Section Inverse.

Open Scope float_scope.


(** On the same input, [PV] of the opposite of the future value is -1. *)
Lemma PV_of_opposite_FV_float :
  PV JS (Num 1) (Num 1) (Num 1)
     (Num (- FV JS (Num 1) (Num 1) (Num 1) (Num 1) (Num 0))) (Num 0)
  = -1.
Proof. vm_compute. reflexivity. Qed.

End Inverse.

Section InverseBound.

Open Scope float_scope.

Variable pow : float -> float -> float.

Local Abbreviation J := (IEEE pow).

Variables rate periods payment pv type : float.

(** The intermediate results of the two calls: the term
    [Math.pow(1 + rate, periods)], the factor [1 + rate * type] of the
    payments, the payments as [FV] accumulates them and the annuity factor
    of [PV]. *)
Local Abbreviation term := (pow (1 + rate) periods).
Local Abbreviation factor := (1 + rate * type).
Local Abbreviation accumulated := (payment * factor * (term - 1) / rate).
Local Abbreviation annuity := ((1 - term) / rate).
Local Abbreviation future :=
  (FV J (Num rate) (Num periods) (Num payment) (Num pv) (Num type)).
Local Abbreviation present :=
  (PV J (Num rate) (Num periods) (Num payment) (Num (- future)) (Num type)).

Hypothesis type_flag : type = 0 \/ type = 1.
Hypothesis grown_normal :
  Rounding.is_normal (pv * term) = true \/ (pv =? 0) = true.
Hypothesis payment_normal : Rounding.is_normal (payment * factor) = true.
Hypothesis payments_normal :
  Rounding.is_normal (payment * factor * (term - 1)) = true.
Hypothesis accumulated_normal : Rounding.is_normal accumulated = true.
Hypothesis future_finite : is_finite future = true.
Hypothesis annuity_normal : Rounding.is_normal annuity = true.
Hypothesis annuity_payment_normal :
  Rounding.is_normal (annuity * payment) = true.
Hypothesis discounted_normal :
  Rounding.is_normal (annuity * payment * factor) = true.
Hypothesis present_normal : Rounding.is_normal present = true.

(** [x || 0] has the value of [x], for a finite [x]. *)
Lemma or_zero_value (x : float) :
  is_finite x = true ->
  is_finite (to_number (@or_zero J (Num x))) = true
  /\ Rounding.F2R (to_number (@or_zero J (Num x))) = Rounding.F2R x.
Proof.
  intros Hx. unfold or_zero, truthy. cbn [to_boolean IEEE].
  destruct (Float64.to_boolean x) eqn:E; [now split |].
  split; [reflexivity |].
  unfold Float64.to_boolean in E. apply negb_false_iff in E.
  assert (Hn : is_nan x = false).
  { unfold is_finite in Hx. now destruct (is_nan x). }
  rewrite Hn, orb_false_r in E.
  destruct (FloatFacts.eqb_zero_spec x E) as [s Hs].
  unfold Rounding.F2R. now rewrite Hs.
Qed.

Lemma rate_nonzero : Rounding.SFnonzero (Prim2SF rate).
Proof.
  now destruct (Rounding.div_nonzero _ _
                  (Rounding.normal_nonzero _ accumulated_normal)).
Qed.

(** [FV] and [PV] on the branch of a rate other than zero, the factor of
    the payments written [1 + rate * type] in both. *)
Lemma FV_form :
  future = to_number (@or_zero J (Num pv)) * term + accumulated.
Proof.
  pose proof rate_nonzero as Hr.
  unfold FV. cbv zeta.
  change (is_num J (Num rate) (zero J)) with (rate =? 0).
  rewrite (Rounding.nonzero_not_zero rate Hr).
  destruct type_flag as [-> | ->].
  - change (num_is J (one J) (@or_zero J (Num 0))) with false. cbv iota.
    cbn [to_number add sub mul div IEEE one].
    now rewrite (Rounding.one_plus_zero rate
                   (Rounding.nonzero_finite rate Hr)), Rounding.mul_one_r.
  - change (num_is J (one J) (@or_zero J (Num 1))) with true. cbv iota.
    cbn [to_number add sub mul div IEEE one].
    now rewrite (Rounding.mul_one_r rate).
Qed.

Lemma PV_form (x : float) :
  PV J (Num rate) (Num periods) (Num payment) (Num x) (Num type)
  = - ((annuity * payment * factor - to_number (@or_zero J (Num x))) / term).
Proof.
  pose proof rate_nonzero as Hr.
  unfold PV. cbv zeta.
  change (is_num J (Num rate) (zero J)) with (rate =? 0).
  rewrite (Rounding.nonzero_not_zero rate Hr).
  assert (Ht : @or_zero J (Num type) = Num type)
    by (destruct type_flag as [-> | ->]; reflexivity).
  rewrite Ht.
  cbn [to_number add sub mul div neg IEEE one].
  apply Rounding.mul_minus_one_r.
Qed.


End InverseBound.


(** The tolerance cannot be relative to the present value alone: with rate
    1, one period, a payment of [2^54] and a present value of 3, every
    intermediate result is a normal number, the future value
    [6 + 2^54] is rounded to [2^54 + 8], and [PV] of its opposite is -4, not
    -3. *)
Lemma PV_of_opposite_FV_cancellation :
  FV JS (Num 1%float) (Num 1%float) (Num 18014398509481984%float)
     (Num 3%float) (Num 0%float)
  = 18014398509481992%float
  /\ PV JS (Num 1%float) (Num 1%float) (Num 18014398509481984%float)
       (Num (- FV JS (Num 1%float) (Num 1%float)
                 (Num 18014398509481984%float) (Num 3%float)
                 (Num 0%float))%float)
       (Num 0%float)
     = (-4)%float
  /\ rel_close_to 1e-9
       (PV JS (Num 1%float) (Num 1%float) (Num 18014398509481984%float)
          (Num (- FV JS (Num 1%float) (Num 1%float)
                    (Num 18014398509481984%float) (Num 3%float)
                    (Num 0%float))%float)
          (Num 0%float))
       (- 3)%float = false.
Proof. repeat split; vm_compute; reflexivity. Qed.

(** ** Principal and interest add up to the payment *)

Section Decomposition.

Open Scope float_scope.

(** C3, refuted as stated: at rate 1 over 60 periods, for the last period
    and a present value of 1, the payment is 1 and the interest [2^60]; the
    principal [1 - 2^60] rounds to [-2^60], and principal plus interest is
    0, not 1. *)
Lemma PPMT_plus_IPMT_rounded :
  let sum :=
    PPMT JS (Num 1) (Num 60) (Num 60) (Num 1) (Num 0) (Num 0)
    + IPMT JS (Num 1) (Num 60) (Num 60) (Num 1) (Num 0) (Num 0) in
  let payment := PMT JS (Num 1) (Num 60) (Num 1) (Num 0) (Num 0) in
  sum = 0 /\ payment = 1
  /\ close_to 1e-9 sum payment = false
  /\ rel_close_to 1e-9 sum payment = false.
Proof. repeat split; vm_compute; reflexivity. Qed.

(** The same on a loan of 200000 over 360 periods at 10% a period: the
    interest of the last period is of the order of [10^19], where floats are
    4096 apart, and the sum is 20480 for a payment of 20000. *)
Lemma PPMT_plus_IPMT_long_loan :
  PPMT JS (Num 0.1) (Num 360) (Num 360) (Num 200000) (Num 0) (Num 0)
  + IPMT JS (Num 0.1) (Num 360) (Num 360) (Num 200000) (Num 0) (Num 0)
  = 20480
  /\ close_to 1e-9
       (PMT JS (Num 0.1) (Num 360) (Num 200000) (Num 0) (Num 0)) 20000
     = true.
Proof. split; vm_compute; reflexivity. Qed.

End Decomposition.

Section DecompositionBound.

Open Scope float_scope.

Variable pow : float -> float -> float.

Local Abbreviation J := (IEEE pow).

Variables rate period periods present future type : value float.

Local Abbreviation payment := (PMT J rate periods present future type).
Local Abbreviation interest :=
  (IPMT J rate period periods present future type).
Local Abbreviation principal :=
  (PPMT J rate period periods present future type).

Hypothesis payment_finite : is_finite payment = true.
Hypothesis interest_finite : is_finite interest = true.
Hypothesis principal_finite : is_finite principal = true.
Hypothesis sum_finite : is_finite (principal + interest) = true.

(** C3, amended: in binary64, for every rate, period, number of periods,
    present value, future value and type for which [PMT], [IPMT], [PPMT]
    and the sum [PPMT + IPMT] are finite, the sum is within
    [2^-50 * (|PMT| + |IPMT|)] of [PMT]: equal up to the rounding of the
    difference [PPMT = PMT - IPMT] and of the sum, which is relative to
    the larger of the payment and the interest, not to the payment alone. *)
Theorem PPMT_plus_IPMT_bound :
  (Rabs (Rounding.F2R (principal + interest) - Rounding.F2R payment)
   <= Rounding.bpow (-50)
      * (Rabs (Rounding.F2R payment) + Rabs (Rounding.F2R interest)))%R.
Proof.
  pose proof principal_finite as Hp. pose proof sum_finite as Hs.
  rewrite (PPMT_difference J) in Hp, Hs |- *.
  pose proof (Rounding.sub_error _ _ payment_finite interest_finite Hp) as H1.
  pose proof (Rounding.add_error _ _ Hp interest_finite Hs) as H2.
  change (sub J payment interest) with (payment - interest) in *.
  revert H1 H2.
  generalize (Rounding.F2R (payment - interest + interest)).
  generalize (Rounding.F2R (payment - interest)).
  generalize (Rounding.F2R payment). generalize (Rounding.F2R interest).
  intros b a p s. rewrite Rounding.ulp_bound_eq, Rounding.bpow_minus_50.
  unfold Rabs. repeat destruct (Rcase_abs _); lra.
Qed.

End DecompositionBound.

(** The last period of 60, at rate 1, for a present value of 1. *)
Lemma PPMT_plus_IPMT_bound_witness :
  is_finite (PMT JS (Num 1%float) (Num 60%float) (Num 1%float) (Num 0%float)
               (Num 0%float)) = true
  /\ is_finite (IPMT JS (Num 1%float) (Num 60%float) (Num 60%float)
                  (Num 1%float) (Num 0%float) (Num 0%float)) = true
  /\ is_finite (PPMT JS (Num 1%float) (Num 60%float) (Num 60%float)
                  (Num 1%float) (Num 0%float) (Num 0%float)) = true
  /\ is_finite
       (PPMT JS (Num 1%float) (Num 60%float) (Num 60%float) (Num 1%float)
          (Num 0%float) (Num 0%float)
        + IPMT JS (Num 1%float) (Num 60%float) (Num 60%float) (Num 1%float)
            (Num 0%float) (Num 0%float))%float = true
  /\ (Rabs
        (Rounding.F2R
           (PPMT JS (Num 1%float) (Num 60%float) (Num 60%float) (Num 1%float)
              (Num 0%float) (Num 0%float)
            + IPMT JS (Num 1%float) (Num 60%float) (Num 60%float)
                (Num 1%float) (Num 0%float) (Num 0%float))%float
         - Rounding.F2R
             (PMT JS (Num 1%float) (Num 60%float) (Num 1%float) (Num 0%float)
                (Num 0%float)))
      <= Rounding.bpow (-50)
         * (Rabs (Rounding.F2R
                    (PMT JS (Num 1%float) (Num 60%float) (Num 1%float)
                       (Num 0%float) (Num 0%float)))
            + Rabs (Rounding.F2R
                      (IPMT JS (Num 1%float) (Num 60%float) (Num 60%float)
                         (Num 1%float) (Num 0%float) (Num 0%float)))))%R.
Proof.
  assert (H1 : is_finite (PMT JS (Num 1%float) (Num 60%float) (Num 1%float)
                            (Num 0%float) (Num 0%float)) = true)
    by (vm_compute; reflexivity).
  assert (H2 : is_finite (IPMT JS (Num 1%float) (Num 60%float) (Num 60%float)
                            (Num 1%float) (Num 0%float) (Num 0%float)) = true)
    by (vm_compute; reflexivity).
  assert (H3 : is_finite (PPMT JS (Num 1%float) (Num 60%float) (Num 60%float)
                            (Num 1%float) (Num 0%float) (Num 0%float)) = true)
    by (vm_compute; reflexivity).
  assert (H4 : is_finite
                 (PPMT JS (Num 1%float) (Num 60%float) (Num 60%float)
                    (Num 1%float) (Num 0%float) (Num 0%float)
                  + IPMT JS (Num 1%float) (Num 60%float) (Num 60%float)
                      (Num 1%float) (Num 0%float) (Num 0%float))%float
               = true)
    by (vm_compute; reflexivity).
  repeat split; try assumption.
  exact (PPMT_plus_IPMT_bound MathPow.Math_pow (Num 1%float) (Num 60%float)
           (Num 60%float) (Num 1%float) (Num 0%float) (Num 0%float)
           H1 H2 H3 H4).
Defined.

(** ** Interest of the first period, payments at the start *)

Section FirstPeriod.

Open Scope float_scope.

(** C4, refuted as stated: the interest base 0 is multiplied by the rate,
    and 0 times an infinite rate is NaN. *)
Lemma IPMT_first_period_infinite_rate :
  IPMT JS (Num infinity) (Num 1) (Num 12) (Num 1000) (Num 0) (Num 1) = nan
  /\ (IPMT JS (Num infinity) (Num 1) (Num 12) (Num 1000) (Num 0) (Num 1) =? 0)
     = false.
Proof. split; vm_compute; reflexivity. Qed.

(** For period 1 and type 1 the result is the product of 0 and the rate,
    for every number type. *)
Lemma IPMT_first_period_product
  (N : Number) (rate periods present future : value (num N)) :
  IPMT N rate (Num (one N)) periods present future (Num (one N))
  = mul N (zero N) (to_number rate).
Proof.
  unfold IPMT. rewrite or_zero_one. simpl. now rewrite one_is_one.
Qed.

(** C4, amended: for every finite rate, and every number of periods, present
    value and future value, [IPMT] with period 1 and type 1 returns a zero
    ([+0], or [-0] for a negative rate). *)
Theorem IPMT_first_period_start
  (pow : float -> float -> float) (rate : float)
  (periods present future : value float) :
  is_finite rate = true ->
  (IPMT (IEEE pow) (Num rate) (Num 1) periods present future (Num 1) =? 0)
  = true.
Proof.
  intros Hrate. rewrite (IPMT_first_period_product (IEEE pow)).
  apply FloatFacts.zero_mul_finite, Hrate.
Qed.

End FirstPeriod.

(** The first interest of a loan of 10000 over 36 periods at 1%, paid at the
    start of the periods. *)
Lemma IPMT_first_period_start_witness :
  is_finite 0.01 = true
  /\ (IPMT JS (Num 0.01) (Num 1) (Num 36) (Num 10000) (Num 0) (Num 1) =? 0)%float
     = true.
Proof.
  split; [reflexivity |].
  exact (IPMT_first_period_start MathPow.Math_pow 0.01 (Num 36%float)
           (Num 10000%float) (Num 0%float) eq_refl).
Defined.

(** ** [Math_pow] at a zero base or a zero exponent *)

Module MathPowFacts.

Import MathPow.

Open Scope float_scope.

Lemma Math_pow_zero (x y : float) : (y =? 0) = true -> Math_pow x y = 1.
Proof. intros H. unfold Math_pow. now rewrite H. Qed.

Lemma power_zero (n : positive) : power 0 n = 0.
Proof.
  unfold power. induction n as [|n IH] using Pos.peano_ind.
  - reflexivity.
  - rewrite Pos.iter_succ, IH. reflexivity.
Qed.

(** A float below zero is [-Infinity] or a negative finite number. *)
Lemma ltb_zero_spec (y : float) :
  (y <? 0) = true ->
  Prim2SF y = S754_infinity true
  \/ exists m e, Prim2SF y = S754_finite true m e.
Proof.
  rewrite ltb_spec. change (Prim2SF 0) with (S754_zero false).
  destruct (Prim2SF y) as [s|s| |s m e]; try discriminate;
    destruct s; try discriminate.
  - now left.
  - right. now exists m, e.
Qed.

Lemma two_power_positive (p : positive) : (0 < Z.pow_pos 2 p)%Z.
Proof. change (0 < 2 ^ Z.pos p)%Z. apply Z.pow_pos_nonneg; lia. Qed.

(** The integer of a negative float is negative. *)
Lemma to_integer_negative (y : float) (m : positive) (e n : Z) :
  Prim2SF y = S754_finite true m e -> to_integer y = Some n -> (n < 0)%Z.
Proof.
  intros Hy. unfold to_integer. rewrite Hy.
  destruct e as [|p|p]; simpl.
  - intros [= <-]. reflexivity.
  - intros [= <-].
    pose proof (two_power_positive p).
    destruct (Z.pow_pos 2 p); lia.
  - destruct (Z.pos m mod Z.pow_pos 2 p =? 0)%Z eqn:Hmod; [|discriminate].
    intros [= <-]. apply Z.eqb_eq in Hmod.
    pose proof (two_power_positive p) as Hp.
    pose proof (Z.div_mod (Z.pos m) (Z.pow_pos 2 p)) as Hd.
    rewrite Hmod in Hd. nia.
Qed.

(** ECMAScript: [Math.pow(+0, y)] is [+Infinity] for [y < 0]. *)
Lemma Math_pow_zero_base (y : float) :
  (y <? 0) = true -> Math_pow 0 y = infinity.
Proof.
  intros Hy. destruct (ltb_zero_spec y Hy) as [Hinf | (m & e & Hfin)].
  - replace y with neg_infinity by (apply Prim2SF_inj; now rewrite Hinf).
    reflexivity.
  - assert (H0 : (y =? 0) = false) by (now rewrite eqb_spec, Hfin).
    assert (Hnan : is_nan y = false).
    { unfold is_nan.
      now rewrite eqb_spec, Hfin, FloatFacts.SFeqb_refl_finite. }
    assert (Hinfty : is_infinity y = false).
    { unfold is_infinity. now rewrite eqb_spec, abs_spec, Hfin. }
    assert (Hpos : (0 <? y) = false) by (now rewrite ltb_spec, Hfin).
    unfold Math_pow. rewrite H0, Hnan, Hinfty, Hpos. simpl.
    destruct (to_integer y) as [n|] eqn:Hn; [|reflexivity].
    pose proof (to_integer_negative y m e n Hfin Hn) as Hneg.
    destruct n as [|n|n]; try lia.
    now rewrite power_zero.
Qed.

End MathPowFacts.

(** ** Future value at rate -1 *)

Section RateMinusOne.

Open Scope float_scope.

(** C5, refuted as stated: at rate -1 over 5 periods the term is
    [Math.pow(0, 5) = 0], the divisor is the rate -1, and [FV] is the
    payment, 100: a finite number. *)
Lemma FV_rate_minus_one_finite :
  FV JS (Num (-1)) (Num 5) (Num 100) (Num 1000) (Num 0) = 100
  /\ is_finite (FV JS (Num (-1)) (Num 5) (Num 100) (Num 1000) (Num 0)) = true
  /\ is_finite (FV JS (Num (-1)) (Num 5) (Num 100) (Num 1000) (Num 1)) = true.
Proof. repeat split; vm_compute; reflexivity. Qed.

Variable pow : float -> float -> float.

(** With a term of 0 the future value is the present value times 0, plus
    the payment times -1 over the rate, -1. *)
Lemma FV_rate_minus_one_term_zero
  (periods : float) (payments present : value float) :
  pow 0 periods = 0 ->
  FV (IEEE pow) (Num (-1)) (Num periods) payments present (Num 0)
  = to_number (@or_zero (IEEE pow) present) * 0
    + to_number (N:=IEEE pow) payments * -1 / -1.
Proof. intros Hpow. unfold FV. simpl. change (1 + -1) with 0. now rewrite Hpow. Qed.

(** ECMAScript: [Math.pow(+0, y)] is [+Infinity] for [y < 0]. *)
Hypothesis pow_zero_base : forall y, (y <? 0) = true -> pow 0 y = infinity.

(** C5, amended: calling [FV] with rate -1 and negative periods, for which
    the term [Math.pow(0, periods)] is [+Infinity], returns infinity or NaN,
    whatever the payment, present value and type; the divisor is the rate,
    -1, never zero. *)
Theorem FV_rate_minus_one
  (periods : float) (payments present type : value float) :
  (periods <? 0) = true ->
  is_finite (FV (IEEE pow) (Num (-1)) (Num periods) payments present type)
  = false.
Proof.
  intros Hperiods. unfold FV. simpl.
  change (1 + -1) with 0. rewrite (pow_zero_base periods Hperiods).
  change (infinity - 1) with infinity.
  destruct (num_is (IEEE pow) 1 (@or_zero (IEEE pow) type)).
  - apply FloatFacts.add_nonfinite; [apply FloatFacts.mul_infinity|].
    apply FloatFacts.div_nonfinite, FloatFacts.mul_infinity.
  - apply FloatFacts.add_nonfinite; [apply FloatFacts.mul_infinity|].
    apply FloatFacts.div_nonfinite, FloatFacts.mul_infinity.
Qed.

End RateMinusOne.

(** [FV(-1, -5, 100, 1000, 0)]. *)
Lemma FV_rate_minus_one_witness :
  (forall y, (y <? 0)%float = true -> MathPow.Math_pow 0 y = infinity)
  /\ (-5 <? 0)%float = true
  /\ is_finite (FV JS (Num (-1)%float) (Num (-5)%float) (Num 100%float)
                  (Num 1000%float) (Num 0%float)) = false.
Proof.
  split; [exact MathPowFacts.Math_pow_zero_base |]. split; [reflexivity |].
  exact (FV_rate_minus_one MathPow.Math_pow MathPowFacts.Math_pow_zero_base
           (-5) (Num 100%float) (Num 1000%float) (Num 0%float) eq_refl).
Defined.

(** ** A payment left out of [FV] *)

Section PaymentOmitted.

Open Scope float_scope.

(** [fv_payments] is not defaulted: left out, it is NaN in the arithmetic,
    and so is the result, for every rate, number of periods, present value
    and type. *)
Lemma FV_payment_omitted
  (pow : float -> float -> float) (rate periods present type : value float) :
  FV (IEEE pow) rate periods Undefined present type = nan.
Proof.
  unfold FV. simpl.
  destruct (is_num (IEEE pow) rate 0).
  - now rewrite FloatFacts.mul_nan_l, FloatFacts.add_nan_r.
  - destruct (num_is (IEEE pow) 1 (@or_zero (IEEE pow) type));
      now rewrite !FloatFacts.mul_nan_l, FloatFacts.div_nan_l,
        FloatFacts.add_nan_r.
Qed.

(** C6, on the code: [FV(0, 5)], and [FV(0, 5, undefined, 1000)], are NaN,
    where [FV(0, 5, 0)] is 0 and [FV(0, 5, 0, 1000)] is 1000. *)
Theorem FV_payment_omitted_is_not_zero_payment :
  FV JS (Num 0) (Num 5) Undefined Undefined Undefined = nan
  /\ FV JS (Num 0) (Num 5) (Num 0) Undefined Undefined = 0
  /\ FV JS (Num 0) (Num 5) Undefined (Num 1000) Undefined = nan
  /\ FV JS (Num 0) (Num 5) (Num 0) (Num 1000) Undefined = 1000.
Proof. repeat split; vm_compute; reflexivity. Qed.

End PaymentOmitted.

(** ** Rate zero *)

(** C7: at rate 0, [FV] is the present value plus payment times periods,
    [PV] is minus the payment times periods, minus the future value, and
    [PMT] is the sum of present and future value over periods, the present
    value of [FV] and the future value of [PV] and [PMT] being the arguments
    after their default substitution [|| 0]; this in every number type, so
    whatever [Math.pow] is: no power is computed. *)
Theorem zero_rate_linear
  (N : Number) (periods payment present future type : value (num N)) :
  FV N (Num (zero N)) periods payment present type
  = add N (to_number (or_zero present))
          (mul N (to_number payment) (to_number periods))
  /\ PV N (Num (zero N)) periods payment future type
     = sub N (mul N (neg N (to_number payment)) (to_number periods))
             (to_number (or_zero future))
  /\ PMT N (Num (zero N)) periods present future type
     = div N (add N (to_number present) (to_number (or_zero future)))
             (to_number periods).
Proof.
  unfold FV, PV, PMT. simpl. rewrite zero_is_zero. repeat split.
Qed.

(** The default substitution keeps every number that is truthy, and [0]. *)
Lemma or_zero_number (N : Number) (x : num N) :
  to_boolean N x = true \/ x = zero N -> or_zero (Num x) = Num x.
Proof.
  intros [H | ->]; [now apply or_zero_truthy | apply or_zero_zero].
Qed.

(** In binary64 it turns [NaN] and [-0] into [+0] and keeps the others: the
    number it gives is [===] to any number given that is not NaN. *)
Lemma or_zero_float (pow : float -> float -> float) (x : float) :
  is_nan x = false ->
  (to_number (@or_zero (IEEE pow) (Num x)) =? x)%float = true.
Proof.
  intros Hx. unfold or_zero, truthy. simpl. unfold Float64.to_boolean.
  rewrite Hx, orb_false_r.
  destruct (x =? 0)%float eqn:H0; simpl.
  - change (Float64.strict_eq 0 x = true).
    rewrite Float64.eqb_sym. exact H0.
  - unfold is_nan in Hx. now destruct (x =? x)%float.
Qed.

(** ** Interest of the later periods *)

Section Later.

Open Scope float_scope.

Variable pow : float -> float -> float.

Local Abbreviation J := (IEEE pow).

(** C8: for every period above 1, [IPMT] is the interest base times the
    rate, where, [payment] being [PMT(rate, periods, pv, fv, type)], the
    base is [FV(rate, period - 2, payment, pv, 1) - payment] for type 1 and
    [FV(rate, period - 1, payment, pv, 0)] for type 0. *)
Theorem IPMT_later_periods
  (period : float) (rate periods pv fv : value float) :
  (1 <? period) = true ->
  (let payment := PMT J rate periods pv fv (Num 1) in
   IPMT J rate (Num period) periods pv fv (Num 1)
   = (FV J rate (Num (period - 2)) (Num payment) pv (Num 1) - payment)
     * to_number (N:=J) rate)
  /\ (let payment := PMT J rate periods pv fv (Num 0) in
      IPMT J rate (Num period) periods pv fv (Num 0)
      = FV J rate (Num (period - 1)) (Num payment) pv (Num 0)
        * to_number (N:=J) rate).
Proof.
  intros Hperiod%FloatFacts.ltb_not_eqb. split.
  - apply (IPMT_start_of_period J rate (Num period) periods pv fv Hperiod).
  - apply (IPMT_end_of_period J rate (Num period) periods pv fv Hperiod).
Qed.

End Later.

(** The interest of the second period of a loan of 10000 over 36 periods at
    1%. *)
Lemma IPMT_later_periods_witness :
  (1 <? 2)%float = true
  /\ IPMT JS (Num 0.01%float) (Num 2%float) (Num 36%float) (Num 10000%float)
       (Num 0%float) (Num 0%float)
     = (FV JS (Num 0.01) (Num (2 - 1))
          (Num (PMT JS (Num 0.01) (Num 36) (Num 10000) (Num 0) (Num 0)))
          (Num 10000) (Num 0) * 0.01)%float.
Proof.
  split; [reflexivity |].
  exact (proj2 (IPMT_later_periods MathPow.Math_pow 2 (Num 0.01%float)
                  (Num 36%float) (Num 10000%float) (Num 0%float) eq_refl)).
Defined.

(** ** A type other than 0 and 1 *)

Section OtherType.

Open Scope float_scope.

(** With rate 1, one period and payment 1, [PV] is [(1 + type) / 2]. *)
Lemma PV_type_arithmetic :
  PV JS (Num 1) (Num 1) (Num 1) (Num 0) (Num 0) = 0.5
  /\ PV JS (Num 1) (Num 1) (Num 1) (Num 0) (Num 1) = 1
  /\ PV JS (Num 1) (Num 1) (Num 1) (Num 0) (Num 2) = 1.5.
Proof. repeat split; vm_compute; reflexivity. Qed.

(** C9: for every type [t] that is truthy and not [1], [FV], [PMT] and
    [IPMT] return what they return for type 0, in every number type, whereas
    [PV], at a rate that is not zero, multiplies by [1 + rate * t]; and for
    some finite rate and payment other than 0, the results of [PV] for the
    types 0, 1 and 2 are finite numbers and the one for type 2 is neither
    the one for type 0 nor the one for type 1. *)
Theorem type_other_than_0_and_1 (N : Number) (t : num N) :
  to_boolean N t = true ->
  strict_eq N t (one N) = false ->
  (forall rate periods payment pv,
      FV N rate periods payment pv (Num t)
      = FV N rate periods payment pv (Num (zero N)))
  /\ (forall rate periods pv fv,
         PMT N rate periods pv fv (Num t)
         = PMT N rate periods pv fv (Num (zero N)))
  /\ (forall rate period periods pv fv,
         IPMT N rate period periods pv fv (Num t)
         = IPMT N rate period periods pv fv (Num (zero N)))
  /\ (forall rate periods payment fv,
         is_num N rate (zero N) = false ->
         let term := pow N (add N (one N) (to_number rate))
                       (to_number periods) in
         PV N rate periods payment fv (Num t)
         = mul N
             (div N
                (sub N
                   (mul N
                      (mul N
                         (div N (sub N (one N) term) (to_number rate))
                         (to_number payment))
                      (add N (one N) (mul N (to_number rate) t)))
                   (to_number (or_zero fv)))
                term)
             (neg N (one N)))
  /\ (exists rate periods payment fv : float,
         is_finite rate = true /\ (rate =? 0) = false
         /\ is_finite payment = true /\ (payment =? 0) = false
         /\ is_finite
              (PV JS (Num rate) (Num periods) (Num payment) (Num fv) (Num 0))
            = true
         /\ is_finite
              (PV JS (Num rate) (Num periods) (Num payment) (Num fv) (Num 1))
            = true
         /\ is_finite
              (PV JS (Num rate) (Num periods) (Num payment) (Num fv) (Num 2))
            = true
         /\ (PV JS (Num rate) (Num periods) (Num payment) (Num fv) (Num 2)
             =? PV JS (Num rate) (Num periods) (Num payment) (Num fv) (Num 0))
            = false
         /\ (PV JS (Num rate) (Num periods) (Num payment) (Num fv) (Num 2)
             =? PV JS (Num rate) (Num periods) (Num payment) (Num fv) (Num 1))
            = false).
Proof.
  intros Ht H1. repeat split.
  - intros. now apply FV_type_other.
  - intros. now apply PMT_type_other.
  - intros. now apply IPMT_type_other.
  - intros rate periods payment fv Hrate. unfold PV.
    rewrite Hrate, (or_zero_truthy N (Num t) Ht). reflexivity.
  - exists 1, 1, 1, 0. repeat split; vm_compute; reflexivity.
Qed.

End OtherType.

(** Type 2 in binary64. *)
Lemma type_other_than_0_and_1_witness :
  to_boolean JS 2%float = true
  /\ strict_eq JS 2%float (one JS) = false
  /\ FV JS (Num 0.01%float) (Num 36%float) (Num 100%float) (Num 10000%float)
       (Num 2%float)
     = FV JS (Num 0.01%float) (Num 36%float) (Num 100%float)
         (Num 10000%float) (Num 0%float).
Proof.
  split; [reflexivity |]. split; [reflexivity |].
  exact (proj1 (type_other_than_0_and_1 JS 2%float eq_refl eq_refl)
           (Num 0.01%float) (Num 36%float) (Num 100%float)
           (Num 10000%float)).
Defined.

(** ** A payment over zero periods *)

Section NoPeriods.

Open Scope float_scope.

Variable pow : float -> float -> float.

(** ECMAScript: [Math.pow(x, y)] is 1 when [y] is [+0] or [-0]. *)
Hypothesis pow_zero : forall x y, (y =? 0) = true -> pow x y = 1.

(** C10: [PMT] over zero periods returns, as every call of it returns a
    number, a number that is not finite: the quotient of present plus
    future value by zero when the rate is 0, and otherwise, the term being
    1, quotients by [term - 1 = 0] and [1 - 1 / term = 0]. *)
Theorem PMT_no_periods
  (periods : float) (rate present future type : value float) :
  (periods =? 0) = true ->
  is_finite (PMT (IEEE pow) rate (Num periods) present future type) = false.
Proof.
  intros Hperiods. unfold PMT. simpl.
  rewrite (pow_zero _ periods Hperiods).
  change (1 - 1) with 0. change (1 - 1 / 1) with 0.
  destruct (is_num (IEEE pow) rate 0).
  - now apply FloatFacts.div_by_zero.
  - destruct (is_num (IEEE pow) (@or_zero (IEEE pow) type) 1).
    + apply FloatFacts.div_nonfinite.
      apply FloatFacts.add_nonfinite; now apply FloatFacts.div_by_zero.
    + apply FloatFacts.add_nonfinite; now apply FloatFacts.div_by_zero.
Qed.

End NoPeriods.

(** [PMT(0.01, 0, 10000, 0, 0)]. *)
Lemma PMT_no_periods_witness :
  (forall x y, (y =? 0)%float = true -> MathPow.Math_pow x y = 1%float)
  /\ (0 =? 0)%float = true
  /\ is_finite (PMT JS (Num 0.01%float) (Num 0%float) (Num 10000%float)
                  (Num 0%float) (Num 0%float)) = false.
Proof.
  split; [exact MathPowFacts.Math_pow_zero |]. split; [reflexivity |].
  exact (PMT_no_periods MathPow.Math_pow MathPowFacts.Math_pow_zero 0 (Num 0.01%float)
           (Num 10000%float) (Num 0%float) (Num 0%float) eq_refl).
Defined.

(** * Further properties of the five functions *)

(** ** Arguments that are falsy *)

Section FalsyArguments.

Variable N : Number.

Local Abbreviation val := (value (num N)).

(** X1: an optional argument that is falsy (left out, [0], and in binary64
    [-0] and [NaN]) is replaced by [0]: with such a present or future value
    [v] and such a type [t], each of the five functions returns what it
    returns for [0] and [0]. *)
Theorem falsy_arguments_are_zero
  (v t : val) (rate period periods payment present : val) :
  truthy v = false ->
  truthy t = false ->
  FV N rate periods payment v t
  = FV N rate periods payment (Num (zero N)) (Num (zero N))
  /\ PV N rate periods payment v t
     = PV N rate periods payment (Num (zero N)) (Num (zero N))
  /\ PMT N rate periods present v t
     = PMT N rate periods present (Num (zero N)) (Num (zero N))
  /\ IPMT N rate period periods present v t
     = IPMT N rate period periods present (Num (zero N)) (Num (zero N))
  /\ PPMT N rate period periods present v t
     = PPMT N rate period periods present (Num (zero N)) (Num (zero N)).
Proof.
  intros Hv Ht.
  unfold PPMT, IPMT, PMT, PV, FV.
  rewrite !(or_zero_falsy N v Hv), !(or_zero_falsy N t Ht), !or_zero_zero.
  repeat split.
Qed.

End FalsyArguments.

(** A future value of NaN and a type left out, in binary64. *)
Lemma falsy_arguments_are_zero_witness :
  truthy (N:=JS) (Num nan) = false
  /\ truthy (N:=JS) Undefined = false
  /\ PMT JS (Num 0.01%float) (Num 36%float) (Num 10000%float) (Num nan)
       Undefined
     = PMT JS (Num 0.01%float) (Num 36%float) (Num 10000%float)
         (Num 0%float) (Num 0%float).
Proof.
  split; [reflexivity |]. split; [reflexivity |].
  exact (proj1 (proj2 (proj2
    (falsy_arguments_are_zero JS (Num nan) Undefined (Num 0.01%float)
       (Num 1%float) (Num 36%float) (Num 0%float) (Num 10000%float)
       eq_refl eq_refl)))).
Defined.

(** ** Payments at the start and at the end of the periods *)

Section Timing.

Variable N : Number.

Local Abbreviation val := (value (num N)).

Variable rate : val.
Hypothesis rate_not_zero : is_num N rate (zero N) = false.

(** X2: at a rate that is not zero, in every number type and to the last
    bit, the payment for type 1 is the payment for type 0 divided by
    [1 + rate], and the future value of payments made at the start of the
    periods is the future value of payments [1 + rate] times as large made
    at their end. *)
Theorem start_and_end_of_period (periods present future : val) (payment : num N) :
  PMT N rate periods present future (Num (one N))
  = div N (PMT N rate periods present future (Num (zero N)))
          (add N (one N) (to_number rate))
  /\ FV N rate periods (Num payment) present (Num (one N))
     = FV N rate periods
          (Num (mul N payment (add N (one N) (to_number rate))))
          present (Num (zero N)).
Proof.
  unfold PMT, FV. rewrite or_zero_one, or_zero_zero, rate_not_zero.
  rewrite !num_is_is_num. simpl.
  rewrite one_is_one, zero_not_one. split; reflexivity.
Qed.

End Timing.

(** A loan of 10000 over 36 periods at 1%, and payments of 100. *)
Lemma start_and_end_of_period_witness :
  is_num JS (Num 0.01%float) (zero JS) = false
  /\ PMT JS (Num 0.01%float) (Num 36%float) (Num 10000%float) (Num 0%float)
       (Num 1%float)
     = (PMT JS (Num 0.01) (Num 36) (Num 10000) (Num 0) (Num 0)
        / (1 + 0.01))%float.
Proof.
  split; [reflexivity |].
  exact (proj1 (start_and_end_of_period JS (Num 0.01%float) eq_refl
                  (Num 36%float) (Num 10000%float) (Num 0%float) 100%float)).
Defined.

(** ** Required arguments left out *)

Module NaNFacts.

Open Scope float_scope.

Lemma mul_nan_r (x : float) : x * nan = nan.
Proof.
  apply FloatFacts.is_nan_spec. rewrite mul_spec.
  change (Prim2SF nan) with S754_nan. now destruct (Prim2SF x).
Qed.

Lemma div_nan_r (x : float) : x / nan = nan.
Proof.
  apply FloatFacts.is_nan_spec. rewrite div_spec.
  change (Prim2SF nan) with S754_nan. now destruct (Prim2SF x).
Qed.

Lemma add_nan_l (x : float) : nan + x = nan.
Proof. apply FloatFacts.is_nan_spec. rewrite add_spec. reflexivity. Qed.

Lemma sub_nan_l (x : float) : nan - x = nan.
Proof. apply FloatFacts.is_nan_spec. rewrite sub_spec. reflexivity. Qed.

Lemma sub_nan_r (x : float) : x - nan = nan.
Proof.
  apply FloatFacts.is_nan_spec. rewrite sub_spec.
  change (Prim2SF nan) with S754_nan. now destruct (Prim2SF x).
Qed.

End NaNFacts.

Create Rewrite HintDb nan_absorbs.

#[local] Hint Rewrite
  FloatFacts.mul_nan_l FloatFacts.div_nan_l FloatFacts.add_nan_r
  NaNFacts.mul_nan_r NaNFacts.div_nan_r NaNFacts.add_nan_l
  NaNFacts.sub_nan_l NaNFacts.sub_nan_r : nan_absorbs.

Section MissingArguments.

Open Scope float_scope.

Variable pow : float -> float -> float.

Local Abbreviation J := (IEEE pow).

Lemma FV_rate_omitted (periods payments present type : value float) :
  FV J Undefined periods payments present type = nan.
Proof.
  unfold FV. simpl.
  destruct (num_is J 1 (@or_zero J type)); now autorewrite with nan_absorbs.
Qed.

Lemma PV_rate_omitted (periods payment future type : value float) :
  PV J Undefined periods payment future type = nan.
Proof. unfold PV. simpl. now autorewrite with nan_absorbs. Qed.

Lemma PMT_rate_omitted (periods present future type : value float) :
  PMT J Undefined periods present future type = nan.
Proof.
  unfold PMT. simpl.
  destruct (is_num J (@or_zero J type) 1); now autorewrite with nan_absorbs.
Qed.

Lemma IPMT_rate_omitted (period periods present future type : value float) :
  IPMT J Undefined period periods present future type = nan.
Proof. unfold IPMT. simpl. now autorewrite with nan_absorbs. Qed.

(** X3: called without a rate, each of the five functions returns NaN,
    whatever the other arguments and whatever [Math.pow] computes. *)
Theorem rate_omitted
  (period periods payment present future type : value float) :
  FV J Undefined periods payment present type = nan
  /\ PV J Undefined periods payment future type = nan
  /\ PMT J Undefined periods present future type = nan
  /\ IPMT J Undefined period periods present future type = nan
  /\ PPMT J Undefined period periods present future type = nan.
Proof.
  repeat split.
  - apply FV_rate_omitted.
  - apply PV_rate_omitted.
  - apply PMT_rate_omitted.
  - apply IPMT_rate_omitted.
  - rewrite (PPMT_difference J), PMT_rate_omitted, IPMT_rate_omitted.
    reflexivity.
Qed.

(** ECMAScript: [Math.pow(x, NaN)] is NaN. *)
Hypothesis pow_nan : forall x, pow x nan = nan.

(** X4: called without the number of periods, [FV], [PV] and [PMT] return
    NaN, whatever the other arguments. *)
Theorem periods_omitted (rate payment present future type : value float) :
  FV J rate Undefined payment present type = nan
  /\ PV J rate Undefined payment future type = nan
  /\ PMT J rate Undefined present future type = nan.
Proof.
  unfold FV, PV, PMT. simpl. rewrite !pow_nan.
  destruct (is_num J rate 0).
  - repeat split; now autorewrite with nan_absorbs.
  - destruct (num_is J 1 (@or_zero J type)), (is_num J (@or_zero J type) 1);
      repeat split; now autorewrite with nan_absorbs.
Qed.

End MissingArguments.

Lemma Math_pow_nan (x : float) : MathPow.Math_pow x nan = nan.
Proof. reflexivity. Qed.

(** [PMT(0.01, undefined, 10000)]. *)
Lemma periods_omitted_witness :
  (forall x, MathPow.Math_pow x nan = nan)
  /\ PMT JS (Num 0.01%float) Undefined (Num 10000%float) Undefined Undefined
     = nan.
Proof.
  split; [exact Math_pow_nan |].
  exact (proj2 (proj2 (periods_omitted MathPow.Math_pow Math_pow_nan
    (Num 0.01%float) (Num 0%float) (Num 10000%float) Undefined Undefined))).
Defined.

(** ** Rate -1 in binary64 *)

Module MathPowPositive.

Import MathPow.

Open Scope float_scope.

(** A float above zero is [+Infinity] or a positive finite number. *)
Lemma gtb_zero_spec (y : float) :
  (0 <? y) = true ->
  Prim2SF y = S754_infinity false
  \/ exists m e, Prim2SF y = S754_finite false m e.
Proof.
  rewrite ltb_spec. change (Prim2SF 0) with (S754_zero false).
  destruct (Prim2SF y) as [s|s| |s m e]; try discriminate;
    destruct s; try discriminate.
  - now left.
  - right. now exists m, e.
Qed.

(** The integer of a positive float is positive. *)
Lemma to_integer_positive (y : float) (m : positive) (e n : Z) :
  Prim2SF y = S754_finite false m e -> to_integer y = Some n -> (0 < n)%Z.
Proof.
  intros Hy. unfold to_integer. rewrite Hy.
  destruct e as [|p|p]; simpl.
  - intros [= <-]. reflexivity.
  - intros [= <-]. pose proof (MathPowFacts.two_power_positive p).
    destruct (Z.pow_pos 2 p); lia.
  - destruct (Z.pos m mod Z.pow_pos 2 p =? 0)%Z eqn:Hmod; [|discriminate].
    intros [= <-]. apply Z.eqb_eq in Hmod.
    pose proof (MathPowFacts.two_power_positive p) as Hp.
    pose proof (Z.div_mod (Z.pos m) (Z.pow_pos 2 p)) as Hd.
    rewrite Hmod in Hd. nia.
Qed.

(** ECMAScript: [Math.pow(+0, y)] is [+0] for [y > 0]. *)
Lemma Math_pow_zero_positive (y : float) :
  (0 <? y) = true -> Math_pow 0 y = 0.
Proof.
  intros Hy. destruct (gtb_zero_spec y Hy) as [Hinf | (m & e & Hfin)].
  - replace y with infinity by (apply Prim2SF_inj; now rewrite Hinf).
    reflexivity.
  - assert (H0 : (y =? 0) = false) by (now rewrite eqb_spec, Hfin).
    assert (Hnan : is_nan y = false).
    { unfold is_nan.
      now rewrite eqb_spec, Hfin, FloatFacts.SFeqb_refl_finite. }
    assert (Hinfty : is_infinity y = false).
    { unfold is_infinity. now rewrite eqb_spec, abs_spec, Hfin. }
    unfold Math_pow. rewrite H0, Hnan, Hinfty, Hy. simpl.
    destruct (to_integer y) as [n|] eqn:Hn; [|reflexivity].
    pose proof (to_integer_positive y m e n Hfin Hn) as Hpos.
    destruct n as [|n|n]; try lia.
    apply MathPowFacts.power_zero.
Qed.

End MathPowPositive.

Section MinusOne.

Open Scope float_scope.

Variable pow : float -> float -> float.

Local Abbreviation J := (IEEE pow).

Lemma mul_nonfinite (x y : float) :
  is_finite x = false -> is_finite (x * y) = false.
Proof.
  intros Hx%FloatFacts.not_finite_spec.
  apply FloatFacts.nonfinite_spec. rewrite mul_spec.
  destruct (Prim2SF x), (Prim2SF y); try discriminate; reflexivity.
Qed.

(** X9: [PMT] with rate -1 and type 1 divides by [1 + rate = 0]: it returns
    infinity or NaN whatever the periods, the present and the future value,
    and whatever [Math.pow] computes. *)
Theorem PMT_rate_minus_one_start
  (periods present future : value float) :
  is_finite (PMT J (Num (-1)) periods present future (Num 1)) = false.
Proof.
  unfold PMT. change (@or_zero J (Num 1)) with (@Num float 1). simpl.
  change (Float64.strict_eq (-1) 0) with false.
  change (Float64.strict_eq 1 1) with true.
  now apply FloatFacts.div_by_zero.
Qed.

(** ECMAScript: [Math.pow(+0, y)] is [+0] for [y > 0]. *)
Hypothesis pow_zero_positive : forall y, (0 <? y) = true -> pow 0 y = 0.

(** X10: [PV] with rate -1 and a positive number of periods divides by the
    term [Math.pow(0, periods) = 0]: it returns infinity or NaN, whatever
    the payment, the future value and the type. *)
Theorem PV_rate_minus_one
  (periods : float) (payment future type : value float) :
  (0 <? periods) = true ->
  is_finite (PV J (Num (-1)) (Num periods) payment future type) = false.
Proof.
  intros Hperiods. unfold PV. simpl.
  change (Float64.strict_eq (-1) 0) with false.
  change (1 + -1) with 0. rewrite (pow_zero_positive periods Hperiods).
  now apply mul_nonfinite, FloatFacts.div_by_zero.
Qed.

End MinusOne.

(** [PV(-1, 5, 100, 1000, 0)]. *)
Lemma PV_rate_minus_one_witness :
  (forall y, (0 <? y)%float = true -> MathPow.Math_pow 0 y = 0%float)
  /\ (0 <? 5)%float = true
  /\ is_finite (PV JS (Num (-1)%float) (Num 5%float) (Num 100%float)
                  (Num 1000%float) (Num 0%float)) = false.
Proof.
  split; [exact MathPowPositive.Math_pow_zero_positive |].
  split; [reflexivity |].
  exact (PV_rate_minus_one MathPow.Math_pow
           MathPowPositive.Math_pow_zero_positive 5 (Num 100%float)
           (Num 1000%float) (Num 0%float) eq_refl).
Defined.

(** ** The principal of the first payment, paid at the start *)

Section FirstPrincipal.

Open Scope float_scope.

Variable pow : float -> float -> float.

Local Abbreviation J := (IEEE pow).

Lemma zero_mul_finite_spec (x : float) :
  is_finite x = true -> exists s, Prim2SF (0 * x) = S754_zero s.
Proof.
  intros Hx%FloatFacts.finite_spec. rewrite mul_spec.
  change (Prim2SF 0) with (S754_zero false).
  destruct (Prim2SF x) as [s|s| |s m e]; try discriminate; simpl; eauto.
Qed.

(** Taking a zero from a number leaves a number [===] to it. *)
Lemma sub_zero_eqb (x z : float) (s : bool) :
  Prim2SF z = S754_zero s -> is_nan x = false -> (x - z =? x) = true.
Proof.
  intros Hz Hx. unfold is_nan in Hx. rewrite eqb_spec in Hx.
  rewrite eqb_spec, sub_spec, Hz.
  destruct (Prim2SF x) as [sx|sx| |sx mx ex]; try discriminate.
  - destruct sx, s; reflexivity.
  - destruct sx; reflexivity.
  - simpl. apply FloatFacts.SFeqb_refl_finite.
Qed.

(** X11: with payments at the start of the periods the first payment is all
    principal: for every finite rate, [PPMT] for period 1 and type 1 is
    [===] to [PMT], whenever [PMT] is not NaN. *)
Theorem PPMT_first_period_start
  (rate : float) (periods present future : value float) :
  is_finite rate = true ->
  is_nan (PMT J (Num rate) periods present future (Num 1)) = false ->
  (PPMT J (Num rate) (Num 1) periods present future (Num 1)
   =? PMT J (Num rate) periods present future (Num 1)) = true.
Proof.
  intros Hrate Hpmt.
  rewrite (PPMT_difference J), (IPMT_first_period_product J).
  destruct (zero_mul_finite_spec rate Hrate) as [s Hs].
  exact (sub_zero_eqb _ _ s Hs Hpmt).
Qed.

End FirstPrincipal.

(** A loan of 10000 over 36 periods at 1%, paid at the start. *)
Lemma PPMT_first_period_start_witness :
  is_finite 0.01 = true
  /\ is_nan (PMT JS (Num 0.01%float) (Num 36%float) (Num 10000%float)
               (Num 0%float) (Num 1%float)) = false
  /\ (PPMT JS (Num 0.01) (Num 1) (Num 36) (Num 10000) (Num 0) (Num 1)
      =? PMT JS (Num 0.01) (Num 36) (Num 10000) (Num 0) (Num 1))%float = true.
Proof.
  split; [reflexivity |]. split; [vm_compute; reflexivity |].
  exact (PPMT_first_period_start MathPow.Math_pow 0.01 (Num 36%float)
           (Num 10000%float) (Num 0%float) eq_refl eq_refl).
Defined.
